(** * Audit log, capture-file download and CA persistence of the logging proxy

    A shallow embedding of [proxy/logger.go], of [handlePcapDownload] from the
    web server and of [LoadOrCreateCA] from [proxy/ca.go], together with the
    properties of the audit log that the design document states.

    Conventions.
    - A Go [string] is a byte sequence: it is a Rocq [string] (a list of 8-bit
      characters).  A Go [[]byte] is a [list byte].
    - A Go [map[string]T] is a [gmap string T].
    - [time.Time] is an integer instant; [time.Now()], the random bytes behind
      [uuid.New()] and the success of a write to the log file are inputs of
      each call ([Env]).
    - [encoding/json] and the layout formatting of [time] are parameters of
      the development (section variables): nothing below depends on how a
      record is rendered, only on whether rendering succeeds. *)

From Stdlib Require Import ZArith NArith Lia.
From Stdlib Require Import Strings.String Strings.Ascii Strings.Byte.
From stdpp Require Import base option list gmap strings.

Local Open Scope string_scope.
Local Open Scope list_scope.
Local Open Scope nat_scope.

(** ** Bytes and strings *)

Definition newline : byte := x0a.

(** [string(b)] for a byte slice [b]. *)
Definition string_of_bytes (b : list byte) : string := string_of_list_byte b.

(** [[]byte(s)] for a string [s]. *)
Definition bytes_of_string (s : string) : list byte := list_byte_of_string s.

Definition byte_of_N (n : N) : byte :=
  match Byte.of_N n with Some b => b | None => x00 end.

(** ** Data model: [logger.go] *)

Definition Time := Z.

Record RequestLog := mkRequestLog {
  ID : string;
  Timestamp : Time;
  Method : string;
  Domain : string;
  Path : string;
  Headers : gmap string string;
  Body : string;
  ResponseStatus : Z;
  ResponseHeaders : gmap string string;
  ResponseBody : string;
  PcapFile : string
}.

(** [logFile] holds the bytes appended through the open handle, in order:
    the file is opened with [O_APPEND], so the durable file is its earlier
    content followed by [logFile]. *)
Record Logger := mkLogger {
  logsDir : string;
  logFile : list byte;
  requests : list RequestLog;
  requestIdx : gmap string nat
}.

(** ** The views of [net/http] that the logger reads *)

(** What [io.ReadAll] returns on a body: all its bytes, or an error. *)
Inductive ReadCloser :=
  | ReadOk (bodyBytes : list byte)
  | ReadFails.

(** [*http.Request]: [req_Body = None] is a nil body. *)
Record Request := mkRequest {
  req_Method : string;
  req_Host : string;
  req_URL_Path : string;
  req_Header : gmap string (list string);
  req_Body : option ReadCloser
}.

Record Response := mkResponse {
  resp_StatusCode : Z;
  resp_Header : gmap string (list string);
  resp_Body : option ReadCloser
}.

(** ** [uuid.New().String()] (github.com/google/uuid)

    [uuid.New] draws 16 random bytes and stamps version 4 and the RFC 4122
    variant on bytes 6 and 8; [String] renders the 16 bytes in lower-case
    hexadecimal, grouped 8-4-4-4-12. *)

Record UUID := mkUUID {
  u0 : byte; u1 : byte; u2 : byte; u3 : byte;
  u4 : byte; u5 : byte; u6 : byte; u7 : byte;
  u8 : byte; u9 : byte; u10 : byte; u11 : byte;
  u12 : byte; u13 : byte; u14 : byte; u15 : byte
}.

Definition uuid_New (rnd : UUID) : UUID :=
  mkUUID (u0 rnd) (u1 rnd) (u2 rnd) (u3 rnd) (u4 rnd) (u5 rnd)
    (byte_of_N (N.lor (N.land (Byte.to_N (u6 rnd)) 15) 64)) (u7 rnd)
    (byte_of_N (N.lor (N.land (Byte.to_N (u8 rnd)) 63) 128)) (u9 rnd)
    (u10 rnd) (u11 rnd) (u12 rnd) (u13 rnd) (u14 rnd) (u15 rnd).

Definition hextable : string := "0123456789abcdef".

Definition hexdigit (n : N) : ascii :=
  match String.get (N.to_nat n) hextable with Some c => c | None => "0"%char end.

(** [hex.Encode]: two digits per byte, high nibble first. *)
Fixpoint hex_Encode (src : list byte) : string :=
  match src with
  | [] => ""
  | v :: src' =>
      String (hexdigit (N.shiftr (Byte.to_N v) 4))
        (String (hexdigit (N.land (Byte.to_N v) 15)) (hex_Encode src'))
  end.

Definition uuid_String (u : UUID) : string :=
  hex_Encode [u0 u; u1 u; u2 u; u3 u] +:+ "-" +:+
  hex_Encode [u4 u; u5 u] +:+ "-" +:+
  hex_Encode [u6 u; u7 u] +:+ "-" +:+
  hex_Encode [u8 u; u9 u] +:+ "-" +:+
  hex_Encode [u10 u; u11 u; u12 u; u13 u; u14 u; u15 u].

(** ** What a call takes from its environment *)

Record Env := mkEnv {
  env_rand : UUID;        (* the 16 random bytes read by [uuid.New] *)
  env_now_pcap : Time;    (* [time.Now()] for the capture-file name *)
  env_now : Time;         (* [time.Now().UTC()] for the timestamp *)
  env_write_ok : bool     (* whether [logFile.Write] succeeds *)
}.

(** [logFile.Write(data)]: on an error the logger prints a warning and goes
    on; nothing is appended. *)
Definition file_Write (f : list byte) (data : list byte) (ok : bool) : list byte :=
  if ok then f ++ data else f.

(** ** Redaction and body cap *)

Definition redacted : string := "[REDACTED]".

(** [key == "Authorization" || key == "X-Api-Key" || key == "Api-Key"] *)
Definition sensitive (key : string) : bool :=
  bool_decide (key = "Authorization") || bool_decide (key = "X-Api-Key")
  || bool_decide (key = "Api-Key").

(** One iteration of the loop over [req.Header] in [LogRequest]. *)
Definition redact_step (key : string) (values : list string)
    (headers : gmap string string) : gmap string string :=
  match values with
  | [] => headers
  | v0 :: _ => if sensitive key then <[key := redacted]> headers
               else <[key := v0]> headers
  end.

Definition redactHeaders (h : gmap string (list string)) : gmap string string :=
  map_fold redact_step ∅ h.

(** One iteration of the loop over [resp.Header] in [LogResponse]. *)
Definition first_step (key : string) (values : list string)
    (headers : gmap string string) : gmap string string :=
  match values with
  | [] => headers
  | v0 :: _ => <[key := v0]> headers
  end.

Definition firstValues (h : gmap string (list string)) : gmap string string :=
  map_fold first_step ∅ h.

Definition bodyLimit : nat := 10 * 1024.

Definition truncation_marker : string := "... [truncated]".

(** The block that both [LogRequest] and [LogResponse] apply to the bytes
    read from a body. *)
Definition capBody (bodyBytes : list byte) : string :=
  if (bodyLimit <? length bodyBytes)%nat
  then string_of_bytes (take bodyLimit bodyBytes) +:+ truncation_marker
  else string_of_bytes bodyBytes.

(** [req.Method == "POST" || req.Method == "PUT" || req.Method == "PATCH"] *)
Definition body_method (m : string) : bool :=
  bool_decide (m = "POST") || bool_decide (m = "PUT") || bool_decide (m = "PATCH").

Definition requestBody (req : Request) : string :=
  match req_Body req with
  | Some rc =>
      if body_method (req_Method req) then
        match rc with
        | ReadOk bodyBytes => capBody bodyBytes
        | ReadFails => ""
        end
      else ""
  | None => ""
  end.

Definition responseBody (resp : Response) : string :=
  match resp_Body resp with
  | Some (ReadOk bodyBytes) => capBody bodyBytes
  | Some ReadFails => ""
  | None => ""
  end.

(** ** The id→position lookup *)

(** [for i, r := range l.requests { l.requestIdx[r.ID] = i }], started at
    position [i]. *)
Fixpoint index_from (rs : list RequestLog) (i : nat) (idx : gmap string nat)
    : gmap string nat :=
  match rs with
  | [] => idx
  | r :: rs' => index_from rs' (S i) (<[ID r := i]> idx)
  end.

Definition rebuildIdx (rs : list RequestLog) : gmap string nat :=
  index_from rs 0 ∅.

Definition workingSetLimit : nat := 1000.

(** ** [splitLines] *)

(** [data[start:i]] *)
Definition slice (data : list byte) (start i : nat) : list byte :=
  take (i - start) (drop start data).

(** The loop of [splitLines] over the bytes still to visit, [i] being the
    position of the first of them; it returns [lines] and [start]. *)
Fixpoint splitLines_loop (data rest : list byte) (i start : nat)
    (lines : list (list byte)) : list (list byte) * nat :=
  match rest with
  | [] => (lines, start)
  | b :: rest' =>
      if Byte.eqb b newline
      then splitLines_loop data rest' (S i) (S i) (lines ++ [slice data start i])
      else splitLines_loop data rest' (S i) start lines
  end.

Definition splitLines (data : list byte) : list (list byte) :=
  let '(lines, start) := splitLines_loop data data 0 0 [] in
  if (start <? length data)%nat then lines ++ [drop start data] else lines.

(** ** The logger *)

Inductive ReadFileResult :=
  | FileData (data : list byte)
  | FileNotExist
  | FileReadError.

Section Logger.

(** [json.Marshal] and [json.Unmarshal] on a [RequestLog], and
    [Time.Format("20060102_150405")]. *)
Variable json_Marshal : RequestLog → option (list byte).
Variable json_Unmarshal : list byte → option RequestLog.
Variable time_Format : Time → string.

(** The loop of [loadExistingLogs] over the lines. *)
Fixpoint load_lines (lines : list (list byte)) (rs : list RequestLog)
    : list RequestLog :=
  match lines with
  | [] => rs
  | line :: lines' =>
      if (length line =? 0)%nat then load_lines lines' rs
      else match json_Unmarshal line with
           | None => load_lines lines' rs
           | Some req => load_lines lines' (rs ++ [req])
           end
  end.

(** [loadExistingLogs]: the second component tells whether an error is
    returned. *)
Definition loadExistingLogs (l : Logger) (rd : ReadFileResult) : Logger * bool :=
  match rd with
  | FileNotExist => (l, false)
  | FileReadError => (l, true)
  | FileData data =>
      (mkLogger (logsDir l) (logFile l)
         (load_lines (splitLines data) (requests l)) (requestIdx l), false)
  end.

(** [NewLogger]: [None] when the log file cannot be opened; an error of
    [loadExistingLogs] is only printed. *)
Definition NewLogger (dir : string) (open_ok : bool) (rd : ReadFileResult)
    : option Logger :=
  if open_ok
  then Some (fst (loadExistingLogs (mkLogger dir [] [] ∅) rd))
  else None.

Definition newEntry (req : Request) (env : Env) : RequestLog :=
  {| ID := String.substring 0 8 (uuid_String (uuid_New (env_rand env)));
     Timestamp := env_now env;
     Method := req_Method req;
     Domain := req_Host req;
     Path := req_URL_Path req;
     Headers := redactHeaders (req_Header req);
     Body := requestBody req;
     ResponseStatus := 0%Z;
     ResponseHeaders := ∅;
     ResponseBody := "";
     PcapFile := "capture_" +:+ time_Format (env_now_pcap env) +:+ ".pcap" |}.

(** [LogRequest] returns the new state of the logger and the entry. *)
Definition LogRequest (l : Logger) (req : Request) (env : Env)
    : Logger * RequestLog :=
  let entry := newEntry req env in
  match json_Marshal entry with
  | None => (l, entry)
  | Some data =>
      let file := file_Write (logFile l) (data ++ [newline]) (env_write_ok env) in
      let rs := requests l ++ [entry] in
      let idx := <[ID entry := length rs - 1]> (requestIdx l) in
      if (workingSetLimit <? length rs)%nat then
        let rs' := drop (length rs - workingSetLimit) rs in
        (mkLogger (logsDir l) file rs' (rebuildIdx rs'), entry)
      else (mkLogger (logsDir l) file rs idx, entry)
  end.

Definition setResponse (r : RequestLog) (status : Z)
    (headers : gmap string string) (body : string) : RequestLog :=
  {| ID := ID r; Timestamp := Timestamp r; Method := Method r;
     Domain := Domain r; Path := Path r; Headers := Headers r;
     Body := Body r;
     ResponseStatus := status;
     ResponseHeaders := headers;
     ResponseBody := body;
     PcapFile := PcapFile r |}.

(** [LogResponse]: [resp = None] is a nil response.  The result is [None]
    when the Go code panics, which it does when the position found in
    [requestIdx] is outside [requests]. *)
Definition LogResponse (l : Logger) (requestID : string)
    (resp : option Response) (write_ok : bool) : option Logger :=
  match resp with
  | None => Some l
  | Some resp =>
      match requestIdx l !! requestID with
      | None => Some l
      | Some idx =>
          match requests l !! idx with
          | None => None
          | Some r =>
              let r' := setResponse r (resp_StatusCode resp)
                          (firstValues (resp_Header resp)) (responseBody resp) in
              let rs := <[idx := r']> (requests l) in
              match json_Marshal r' with
              | None => Some (mkLogger (logsDir l) (logFile l) rs (requestIdx l))
              | Some data =>
                  Some (mkLogger (logsDir l)
                          (file_Write (logFile l) (data ++ [newline]) write_ok)
                          rs (requestIdx l))
              end
          end
      end
  end.

(** [GetRequests] copies the slice. *)
Definition GetRequests (l : Logger) : list RequestLog := requests l.

End Logger.

(** A run of [LogRequest] calls, one after the other, and the entries they
    create. *)
Section Runs.

Variable json_Marshal : RequestLog → option (list byte).
Variable time_Format : Time → string.

Fixpoint record_all (l : Logger) (calls : list (Request * Env)) : Logger :=
  match calls with
  | [] => l
  | (req, env) :: calls' =>
      record_all (fst (LogRequest json_Marshal time_Format l req env)) calls'
  end.

Definition entries_of (calls : list (Request * Env)) : list RequestLog :=
  map (λ c, newEntry time_Format (fst c) (snd c)) calls.

Variable json_Unmarshal : list byte → option RequestLog.

(** The states of a logger that the program can reach: [NewLogger], then
    any interleaving of [LogRequest] and [LogResponse]. *)
Inductive reachable : Logger → Prop :=
  | reach_new dir rd l :
      NewLogger json_Unmarshal dir true rd = Some l → reachable l
  | reach_request l req env :
      reachable l →
      reachable (fst (LogRequest json_Marshal time_Format l req env))
  | reach_response l id resp ok l' :
      reachable l →
      LogResponse json_Marshal l id resp ok = Some l' → reachable l'.

End Runs.

(** ** The capture-file download: [handlePcapDownload]

    The functions of [strings] and [path/filepath] (Unix) that the handler
    calls, after their Go definitions; [filepath.Join] and [os.Stat] are
    parameters. *)

(** [strings.HasPrefix(s, prefix)] *)
Definition HasPrefix (s prefix : string) : bool := String.prefix prefix s.

(** [strings.HasSuffix(s, suffix)]:
    [len(s) >= len(suffix) && s[len(s)-len(suffix):] == suffix] *)
Definition HasSuffix (s suffix : string) : bool :=
  (String.length suffix <=? String.length s)
  && String.eqb
       (String.substring (String.length s - String.length suffix)
          (String.length suffix) s)
       suffix.

(** [strings.TrimPrefix(s, prefix)] *)
Definition TrimPrefix (s prefix : string) : string :=
  if HasPrefix s prefix
  then String.substring (String.length prefix)
         (String.length s - String.length prefix) s
  else s.

(** [os.IsPathSeparator] *)
Definition IsPathSeparator (c : ascii) : bool := Ascii.eqb c "/"%char.

(** The two loops of [filepath.Base], run on the path read from its end:
    drop the trailing separators, then keep what comes before the next
    separator. *)
Fixpoint stripSeparators (r : list ascii) : list ascii :=
  match r with
  | c :: r' => if IsPathSeparator c then stripSeparators r' else r
  | [] => []
  end.

Fixpoint lastElement (r : list ascii) : list ascii :=
  match r with
  | c :: r' => if IsPathSeparator c then [] else c :: lastElement r'
  | [] => []
  end.

(** [filepath.Base] *)
Definition Base (path : string) : string :=
  match path with
  | EmptyString => "."
  | _ =>
      match lastElement (stripSeparators (rev (list_ascii_of_string path))) with
      | [] => "/"
      | e => string_of_list_ascii (rev e)
      end
  end.

(** Whether a string holds a path separator. *)
Definition has_separator (s : string) : bool :=
  existsb IsPathSeparator (list_ascii_of_string s).

Inductive StatResult :=
  | StatOk
  | StatNotExist
  | StatError.

(** What the handler answers: the two error replies with their text, or the
    hand-over of [pcapPath] to [http.ServeFile], announced as [filename]. *)
Inductive Outcome :=
  | BadRequest (msg : string)
  | NotFound (msg : string)
  | ServeFile (pcapPath : string) (filename : string).

Section WebServer.

Variable filepath_Join : string → string → string.
Variable os_Stat : string → StatResult.

(** [handlePcapDownload] on [r.URL.Path]: the outcome, and the paths it
    has asked the storage about. *)
Definition handlePcapDownload (logsDir : string) (urlPath : string)
    : Outcome * list string :=
  let filename := TrimPrefix urlPath "/api/pcap/" in
  if String.eqb filename "" then (BadRequest "No filename specified", [])
  else
    let filename := Base filename in
    if negb (HasSuffix filename ".pcap") then (BadRequest "Invalid file type", [])
    else
      let pcapPath := filepath_Join logsDir filename in
      match os_Stat pcapPath with
      | StatNotExist => (NotFound "PCAP file not found", [pcapPath])
      | _ => (ServeFile pcapPath filename, [pcapPath])
      end.

End WebServer.

(** ** The root CA: [ca.go]

    The storage is a map from paths to file contents: [os.Stat] succeeds on
    the paths it holds and [os.ReadFile] returns their contents.  Whether a
    write succeeds, the clock and the random bytes are inputs of the call.
    Key generation, X.509, PKCS #1 and PEM are parameters. *)

Inductive result (A : Type) :=
  | Ok (a : A)
  | Err (msg : string).
Arguments Ok {A} a.
Arguments Err {A} msg.

(** The fields of [x509.Certificate] that [createCA] sets. *)
Record CertTemplate := mkCertTemplate {
  SerialNumber : Z;
  Organization : list string;
  CommonName : string;
  NotBefore : Time;
  NotAfter : Time;
  KeyUsage : Z;
  ExtKeyUsage : list Z;
  BasicConstraintsValid : bool;
  IsCA : bool;
  MaxPathLen : Z;
  MaxPathLenZero : bool
}.

Definition KeyUsageDigitalSignature : Z := 1.
Definition KeyUsageCertSign : Z := 32.
Definition KeyUsageCRLSign : Z := 64.
Definition ExtKeyUsageServerAuth : Z := 1.

Record CAEnv := mkCAEnv {
  ca_rand_key : N;          (* random bytes read by [rsa.GenerateKey] *)
  ca_rand_serial : N;       (* random bytes read by [rand.Int] *)
  ca_rand_sign : N;         (* random bytes read by [x509.CreateCertificate] *)
  ca_now_before : Time;     (* [time.Now()] for [NotBefore] *)
  ca_now_after : Time;      (* [time.Now()] for [NotAfter] *)
  ca_write_cert_ok : bool;  (* whether writing [ca.crt] succeeds *)
  ca_write_key_ok : bool    (* whether writing [ca.key] succeeds *)
}.

Section CA.

Variables PrivateKey PublicKey Certificate : Type.

Variable rsa_GenerateKey : N → nat → option PrivateKey.
Variable key_PublicKey : PrivateKey → PublicKey.
Variable rand_Int : N → Z → option Z.
Variable time_AddDate : Time → Z → Z → Z → Time.
Variable x509_CreateCertificate :
  N → CertTemplate → CertTemplate → PublicKey → PrivateKey → option (list byte).
Variable x509_ParseCertificate : list byte → option Certificate.
Variable x509_MarshalPKCS1PrivateKey : PrivateKey → list byte.
Variable x509_ParsePKCS1PrivateKey : list byte → option PrivateKey.
(** [pem.EncodeToMemory] of a block of the given type and bytes, and the
    bytes of the first block that [pem.Decode] finds. *)
Variable pem_EncodeToMemory : string → list byte → list byte.
Variable pem_Decode : list byte → option (list byte).
Variable filepath_Join : string → string → string.

Record CAConfig := mkCAConfig {
  Cert : Certificate;
  Key : PrivateKey;
  CertPEM : list byte;
  KeyPEM : list byte
}.

Definition loadCA (fs : gmap string (list byte)) (certPath keyPath : string)
    : result CAConfig :=
  match fs !! certPath with
  | None => Err "failed to read CA cert"
  | Some certPEM =>
  match fs !! keyPath with
  | None => Err "failed to read CA key"
  | Some keyPEM =>
  match pem_Decode certPEM with
  | None => Err "failed to decode CA cert PEM"
  | Some certBlock =>
  match x509_ParseCertificate certBlock with
  | None => Err "failed to parse CA cert"
  | Some cert =>
  match pem_Decode keyPEM with
  | None => Err "failed to decode CA key PEM"
  | Some keyBlock =>
  match x509_ParsePKCS1PrivateKey keyBlock with
  | None => Err "failed to parse CA key"
  | Some key => Ok (mkCAConfig cert key certPEM keyPEM)
  end end end end end end.

Definition caTemplate (serialNumber : Z) (env : CAEnv) : CertTemplate :=
  {| SerialNumber := serialNumber;
     Organization := ["Agent Network Logger"];
     CommonName := "Agent Network Logger CA";
     NotBefore := ca_now_before env;
     NotAfter := time_AddDate (ca_now_after env) 10 0 0;
     KeyUsage := Z.lor (Z.lor KeyUsageCertSign KeyUsageCRLSign)
                   KeyUsageDigitalSignature;
     ExtKeyUsage := [ExtKeyUsageServerAuth];
     BasicConstraintsValid := true;
     IsCA := true;
     MaxPathLen := 0;
     MaxPathLenZero := true |}.

(** [createCA] returns its result and the storage it leaves. *)
Definition createCA (fs : gmap string (list byte)) (certPath keyPath : string)
    (env : CAEnv) : result CAConfig * gmap string (list byte) :=
  match rsa_GenerateKey (ca_rand_key env) 2048 with
  | None => (Err "failed to generate CA key", fs)
  | Some key =>
  match rand_Int (ca_rand_serial env) (Z.shiftl 1 128) with
  | None => (Err "failed to generate serial number", fs)
  | Some serialNumber =>
  let template := caTemplate serialNumber env in
  match x509_CreateCertificate (ca_rand_sign env) template template
          (key_PublicKey key) key with
  | None => (Err "failed to create CA cert", fs)
  | Some certDER =>
  match x509_ParseCertificate certDER with
  | None => (Err "failed to parse created cert", fs)
  | Some cert =>
  let certPEM := pem_EncodeToMemory "CERTIFICATE" certDER in
  let keyPEM :=
    pem_EncodeToMemory "RSA PRIVATE KEY" (x509_MarshalPKCS1PrivateKey key) in
  if negb (ca_write_cert_ok env) then (Err "failed to write CA cert", fs)
  else
    let fs1 := <[certPath := certPEM]> fs in
    if negb (ca_write_key_ok env) then (Err "failed to write CA key", fs1)
    else (Ok (mkCAConfig cert key certPEM keyPEM), <[keyPath := keyPEM]> fs1)
  end end end end.

Definition LoadOrCreateCA (fs : gmap string (list byte)) (logsDir : string)
    (env : CAEnv) : result CAConfig * gmap string (list byte) :=
  let certPath := filepath_Join logsDir "ca.crt" in
  let keyPath := filepath_Join logsDir "ca.key" in
  match fs !! certPath, fs !! keyPath with
  | Some _, Some _ => (loadCA fs certPath keyPath, fs)
  | _, _ => createCA fs certPath keyPath env
  end.

End CA.

Arguments Cert {PrivateKey Certificate} c.
Arguments Key {PrivateKey Certificate} c.
Arguments CertPEM {PrivateKey Certificate} c.
Arguments KeyPEM {PrivateKey Certificate} c.

(** ** Vocabulary of the statements *)

(** The last [n] elements of a list: [l[len(l)-n:]], or [l] when it is
    shorter. *)
Definition lastn {A} (n : nat) (l : list A) : list A := drop (length l - n) l.

(** [i] is the last position of [rs] whose record has id [id]. *)
Definition last_position (rs : list RequestLog) (id : string) (i : nat) : Prop :=
  (∃ r, rs !! i = Some r ∧ ID r = id) ∧
  ∀ j r, i < j → rs !! j = Some r → ID r ≠ id.

(** Every entry of the lookup points at a record of that id. *)
Definition idx_sound (l : Logger) : Prop :=
  ∀ id i, requestIdx l !! id = Some i →
    ∃ r, requests l !! i = Some r ∧ ID r = id.

(** The first four bytes of a UUID: the 32 random bits behind an id. *)
Definition prefix32 (u : UUID) : list byte := [u0 u; u1 u; u2 u; u3 u].






(** The value of a hexadecimal digit, to read an id back. *)
Definition hex_value (c : ascii) : N :=
  let n := N_of_ascii c in
  if (n <? 58)%N then (n - 48)%N else (n - 87)%N.

(** What [splitLines] computes, told by the line being read: [cur] is the
    line read so far. *)
Fixpoint lines_of (cur rest : list byte) : list (list byte) :=
  match rest with
  | [] => match cur with [] => [] | _ => [cur] end
  | b :: rest' =>
      if Byte.eqb b newline then cur :: lines_of [] rest'
      else lines_of (cur ++ [b]) rest'
  end.

(** What [loadExistingLogs] makes of one line: nothing when it is empty or
    does not parse. *)
Definition parse_line (json_Unmarshal : list byte → option RequestLog)
    (line : list byte) : option RequestLog :=
  if length line =? 0 then None else json_Unmarshal line.

(** ** A line codec to run the logger on

    A rendering of a record as [{id}] and its parser, and a constant clock
    layout: an instance of the three parameters for the examples below. *)

Definition emptyLog (id : string) : RequestLog :=
  mkRequestLog id 0%Z "" "" "" ∅ "" 0%Z ∅ "" "".

Definition line_Marshal (r : RequestLog) : option (list byte) :=
  Some (bytes_of_string ("{" +:+ ID r +:+ "}")).

Definition line_Unmarshal (line : list byte) : option RequestLog :=
  match line with
  | x7b :: rest =>
      match rev rest with
      | x7d :: mid => Some (emptyLog (string_of_bytes (rev mid)))
      | _ => None
      end
  | _ => None
  end.

Definition line_Format (t : Time) : string := "20060102_150405".

(** A join for directory and file names that need no cleaning, and a
    storage without files. *)
Definition join_plain (dir name : string) : string := dir +:+ "/" +:+ name.

Definition no_files (p : string) : StatResult := StatNotExist.

(** An instance of the parameters to run [LoadOrCreateCA] on: keys and
    certificates are their own encodings, and a PEM file is a tag byte
    followed by the bytes of the block. *)
Definition raw_GenerateKey (seed : N) (bits : nat) : option (list byte) :=
  Some [byte_of_N (seed mod 256)].

Definition raw_Int (seed : N) (max : Z) : option Z := Some (Z.of_N seed mod max)%Z.

Definition raw_AddDate (t : Time) (years months days : Z) : Time :=
  (t + years * 31536000)%Z.

Definition raw_CreateCertificate (seed : N) (template parent : CertTemplate)
    (pub priv : list byte) : option (list byte) :=
  Some (bytes_of_string (CommonName template) ++ pub).

Definition raw_Parse (der : list byte) : option (list byte) := Some der.

Definition raw_Marshal (key : list byte) : list byte := key.

Definition raw_pem_Encode (type : string) (der : list byte) : list byte :=
  (if String.eqb type "CERTIFICATE" then x01 else x02) :: der.

Definition raw_pem_Decode (data : list byte) : option (list byte) :=
  match data with
  | [] => None
  | _ :: der => Some der
  end.

Definition caEnv0 : CAEnv := mkCAEnv 7 11 13 0%Z 0%Z true true.

(** ** Sample inputs *)

Definition zeroUUID : UUID :=
  mkUUID x00 x00 x00 x00 x00 x00 x00 x00 x00 x00 x00 x00 x00 x00 x00 x00.

(** A UUID whose first byte is [b]. *)
Definition uuid_with (b : byte) : UUID :=
  mkUUID b x00 x00 x00 x00 x00 x00 x00 x00 x00 x00 x00 x00 x00 x00 x00.

Definition env0 : Env := mkEnv zeroUUID 0%Z 0%Z true.

Definition env_with (b : byte) : Env := mkEnv (uuid_with b) 0%Z 0%Z true.

Definition emptyLogger : Logger := mkLogger "/logs" [] [] ∅.

Definition getA : Request := mkRequest "GET" "example.com" "/a" ∅ None.

Definition bearer : string := "Bearer secret123".


Definition ok200 : Response := mkResponse 200%Z ∅ None.

Definition err500 : Response := mkResponse 500%Z ∅ None.


Definition okA (n : nat) : Response :=
  mkResponse 200%Z ∅ (Some (ReadOk (replicate n "a"%byte))).

(** A logger that holds one pending record. *)
Definition oneLogger : Logger :=
  mkLogger "/logs" [] [emptyLog "00000000"] {["00000000" := 0]}.

(** A GET request that carries a body. *)
Definition getWithBody : Request :=
  mkRequest "GET" "example.com" "/a" ∅ (Some (ReadOk (replicate 1024 "a"%byte))).

(** The logger after one recorded request, and the id of that request. *)
Definition loggerA : Logger :=
  fst (LogRequest line_Marshal line_Format emptyLogger getA env0).

Definition idA : string :=
  ID (snd (LogRequest line_Marshal line_Format emptyLogger getA env0)).

(** A file of [n] lines [{x}], each closed by a newline. *)
Definition file_of_lines (n : nat) : list byte :=
  concat (replicate n (bytes_of_string "{x}" ++ [newline])).

(** ** The listing handlers of the web server and the proxy hooks

    [handleRequests] and [handlePcapList] of the web server, and the two
    functions that [main] registers with the proxy.  The JSON encoder and
    [os.ReadDir] are parameters; each returns its result or the text of its
    error. *)

(** What a listing handler answers: the encoded value, or the internal
    error with its text. *)
Inductive ListOutcome :=
  | Encoded (body : list byte)
  | InternalError (msg : string).

(** The loop of [handleRequests]: [reversed[len(requests)-1-i] = req], the
    records still to visit starting at position [i]. *)
Fixpoint reverse_loop (rest : list RequestLog) (n i : nat)
    (reversed : list RequestLog) : list RequestLog :=
  match rest with
  | [] => reversed
  | req :: rest' => reverse_loop rest' n (S i) (<[n - 1 - i := req]> reversed)
  end.

(** [reversed] after the loop, from [make([]RequestLog, len(requests))]. *)
Definition reverseRequests (requests : list RequestLog) : list RequestLog :=
  reverse_loop requests (length requests) 0
    (replicate (length requests) (emptyLog "")).

(** The loop of [handlePcapList] over the names of the directory entries.
    [pcapFiles] starts as a nil slice, which is the empty list here (the
    encoder writes a nil slice as [null]). *)
Fixpoint pcap_loop (files : list string) (pcapFiles : list string) : list string :=
  match files with
  | [] => pcapFiles
  | name :: files' =>
      if HasSuffix name ".pcap" then pcap_loop files' (pcapFiles ++ [name])
      else pcap_loop files' pcapFiles
  end.

Section Listings.

Variable json_EncodeLogs : list RequestLog → list byte + string.
Variable json_EncodeNames : list string → list byte + string.
Variable os_ReadDir : string → list string + string.

Definition handleRequests (l : Logger) : ListOutcome :=
  match json_EncodeLogs (reverseRequests (GetRequests l)) with
  | inl body => Encoded body
  | inr msg => InternalError msg
  end.

Definition handlePcapList (logsDir : string) : ListOutcome :=
  match os_ReadDir logsDir with
  | inr msg => InternalError msg
  | inl files =>
      match json_EncodeNames (pcap_loop files []) with
      | inl body => Encoded body
      | inr msg => InternalError msg
      end
  end.

End Listings.

(** [ctx.UserData]: nothing, a string, or a value of another type. *)
Inductive UserData :=
  | NoData
  | StringData (s : string)
  | OtherData.

Section Hooks.

Variable json_Marshal : RequestLog → option (list byte).
Variable time_Format : Time → string.

(** The function that [main] gives to [proxy.OnRequest().DoFunc]: it
    records the request and keeps the id in [ctx.UserData]. *)
Definition onRequest (l : Logger) (req : Request) (env : Env) : Logger * UserData :=
  let '(l', entry) := LogRequest json_Marshal time_Format l req env in
  (l', StringData (ID entry)).

(** The function that [main] gives to [proxy.OnResponse().DoFunc]. *)
Definition onResponse (l : Logger) (data : UserData) (resp : option Response)
    (write_ok : bool) : option Logger :=
  match data with
  | StringData requestID => LogResponse json_Marshal l requestID resp write_ok
  | _ => Some l
  end.

(** One exchange through the proxy: the request hook, then the response
    hook with the data that the request hook has left. *)
Definition exchange (l : Logger) (req : Request) (env : Env)
    (resp : option Response) (write_ok : bool) : option Logger :=
  let '(l', data) := onRequest l req env in
  onResponse l' data resp write_ok.

End Hooks.

(** A directory listing for the examples. *)
Definition sample_dir : list string :=
  ["ca.crt"; "ca.key"; "capture_20240101_000000.pcap"; "requests.jsonl"].

(** Whether a file read so far as the line [cur] followed by the bytes
    [rest] ends in a line that no newline closes. *)
Definition unterminated (cur rest : list byte) : bool :=
  match last rest with
  | Some b => negb (Byte.eqb b newline)
  | None => match cur with [] => false | _ => true end
  end.

(** The lines [ls], each closed by a newline. *)
Definition join_lines (ls : list (list byte)) : list byte :=
  concat (map (λ line, line ++ [newline]) ls).

(** A line holds no newline. *)
Definition newline_free (line : list byte) : Prop :=
  Forall (λ b, Byte.eqb b newline = false) line.

(** A durable file of four lines: two that parse, one garbled, one empty. *)
Definition mixed_lines : list (list byte) :=
  [bytes_of_string "{x}"; bytes_of_string "garbled"; []; bytes_of_string "{y}"].

(** Two records agree on every field that [LogRequest] fills. *)
Definition same_request (r r' : RequestLog) : Prop :=
  ID r' = ID r ∧ Timestamp r' = Timestamp r ∧ Method r' = Method r
  ∧ Domain r' = Domain r ∧ Path r' = Path r ∧ Headers r' = Headers r
  ∧ Body r' = Body r ∧ PcapFile r' = PcapFile r.

(** The bytes that [json.Marshal] gives for a record, nothing when it
    fails. *)
Definition rendering (json_Marshal : RequestLog → option (list byte))
    (r : RequestLog) : list byte :=
  default [] (json_Marshal r).

(** A call whose entry is rendered as a line (not empty, without newline)
    and whose write succeeds. *)
Definition written_as_line (json_Marshal : RequestLog → option (list byte))
    (time_Format : Time → string) (c : Request * Env) : Prop :=
  env_write_ok (snd c) = true
  ∧ ∃ data, json_Marshal (newEntry time_Format (fst c) (snd c)) = Some data
      ∧ data ≠ [] ∧ newline_free data.

(** The lookup is the one that the rebuild loop gives for the sequence. *)
Definition idx_exact (l : Logger) : Prop :=
  requestIdx l = rebuildIdx (requests l).

(** A response that carries an [Authorization] header. *)
Definition authResponse : Response :=
  mkResponse 200%Z {["Authorization" := [bearer]]} None.

(** An environment in which the write of [ca.key] fails, and a storage that
    already holds a certificate but no key. *)
Definition caEnv_key_fails : CAEnv := mkCAEnv 7 11 13 0%Z 0%Z true false.

Definition cert_only : gmap string (list byte) :=
  {[join_plain "/logs" "ca.crt" := [x01; x2a]]}.

(** A storage that holds both artifacts, in the encoding of the instance
    above. *)
Definition both_artifacts : gmap string (list byte) :=
  <[join_plain "/logs" "ca.key" := [x02; x07]]> cert_only.

(** * Properties *)

(** ** Header maps *)

Lemma redactHeaders_lookup (h : gmap string (list string)) (key : string) :
  redactHeaders h !! key =
    match h !! key with
    | Some (v0 :: _) => Some (if sensitive key then redacted else v0)
    | _ => None
    end.
Proof.
  unfold redactHeaders. revert key.
  apply (map_fold_weak_ind
    (λ (r : gmap string string) (m : gmap string (list string)),
      ∀ key, r !! key = match m !! key with
                        | Some (v0 :: _) => Some (if sensitive key then redacted else v0)
                        | _ => None
                        end)).
  - intros key. by rewrite !lookup_empty.
  - intros i x m r Hi IH key. unfold redact_step.
    destruct (decide (i = key)) as [->|Hne].
    + rewrite lookup_insert_eq. destruct x as [|v0 vs].
      * rewrite IH, Hi. done.
      * destruct (sensitive key); by rewrite lookup_insert_eq.
    + rewrite (lookup_insert_ne m) by done. rewrite <- IH.
      destruct x as [|v0 vs]; [done|].
      destruct (sensitive i); by rewrite lookup_insert_ne.
Qed.

Lemma firstValues_lookup (h : gmap string (list string)) (key : string) :
  firstValues h !! key = h !! key ≫= head.
Proof.
  unfold firstValues. revert key.
  apply (map_fold_weak_ind
    (λ (r : gmap string string) (m : gmap string (list string)),
      ∀ key, r !! key = m !! key ≫= head)).
  - intros key. by rewrite !lookup_empty.
  - intros i x m r Hi IH key. unfold first_step.
    destruct (decide (i = key)) as [->|Hne].
    + rewrite lookup_insert_eq. destruct x as [|v0 vs]; simpl.
      * rewrite IH, Hi. done.
      * by rewrite lookup_insert_eq.
    + rewrite (lookup_insert_ne m) by done. rewrite <- IH.
      destruct x as [|v0 vs]; [done|]. by rewrite lookup_insert_ne.
Qed.


(** ** Lists *)

Lemma lastn_short {A} (n : nat) (l : list A) : length l ≤ n → lastn n l = l.
Proof. intros H. unfold lastn. by replace (length l - n) with 0 by lia. Qed.

Lemma length_lastn {A} (n : nat) (l : list A) : length (lastn n l) = min n (length l).
Proof. unfold lastn. rewrite length_drop. lia. Qed.

Lemma lastn_app_r {A} (n : nat) (l k : list A) :
  n ≤ length k → lastn n (l ++ k) = lastn n k.
Proof.
  intros H. unfold lastn. rewrite length_app.
  replace (length l + length k - n) with (length l + (length k - n)) by lia.
  by rewrite <- drop_drop, drop_app_length.
Qed.

Lemma lastn_lastn_app {A} (n : nat) (l k : list A) :
  lastn n (lastn n l ++ k) = lastn n (l ++ k).
Proof.
  destruct (decide (length l ≤ n)) as [Hle|Hgt].
  - by rewrite (lastn_short n l).
  - unfold lastn. rewrite !length_app, length_drop.
    rewrite !skipn_app, length_drop, drop_drop. f_equal; f_equal; lia.
Qed.

Lemma lastn_sublist {A} (n : nat) (l : list A) : sublist (lastn n l) l.
Proof. apply sublist_drop. Qed.

(** ** One call of [LogRequest] *)

Section LogRequestFacts.

Variable json_Marshal : RequestLog → option (list byte).
Variable time_Format : Time → string.

Local Abbreviation record := (LogRequest json_Marshal time_Format).
Local Abbreviation entry_of := (newEntry time_Format).

Lemma LogRequest_entry l req env : snd (record l req env) = entry_of req env.
Proof.
  unfold LogRequest.
  destruct (json_Marshal _); [|done]. by destruct (_ <? _)%nat.
Qed.

Lemma LogRequest_not_marshalled l req env :
  json_Marshal (entry_of req env) = None → fst (record l req env) = l.
Proof. intros H. unfold LogRequest. by rewrite H. Qed.

Lemma LogRequest_requests l req env data :
  json_Marshal (entry_of req env) = Some data →
  requests (fst (record l req env))
    = lastn workingSetLimit (requests l ++ [entry_of req env]).
Proof.
  intros H. unfold LogRequest. rewrite H.
  destruct (_ <? _)%nat eqn:Hlt; simpl; [done|].
  apply Nat.ltb_ge in Hlt. by rewrite lastn_short.
Qed.

Lemma LogRequest_logFile l req env data :
  json_Marshal (entry_of req env) = Some data →
  logFile (fst (record l req env))
    = file_Write (logFile l) (data ++ [newline]) (env_write_ok env).
Proof.
  intros H. unfold LogRequest. rewrite H.
  by destruct (_ <? _)%nat.
Qed.



End LogRequestFacts.

(** ** The lookup rebuilt from a sequence *)

Lemma index_from_snoc rs r i idx :
  index_from (rs ++ [r]) i idx = <[ID r := i + length rs]> (index_from rs i idx).
Proof.
  revert i idx. induction rs as [|r0 rs IH]; intros i idx; simpl.
  - by rewrite Nat.add_0_r.
  - rewrite IH. f_equal. lia.
Qed.

Lemma rebuildIdx_snoc rs r :
  rebuildIdx (rs ++ [r]) = <[ID r := length rs]> (rebuildIdx rs).
Proof. unfold rebuildIdx. by rewrite index_from_snoc. Qed.

Lemma last_position_snoc_eq rs r i :
  last_position (rs ++ [r]) (ID r) i ↔ i = length rs.
Proof.
  split.
  - intros [(r0 & Hr0 & Hid) Hlast].
    apply lookup_snoc_Some in Hr0 as [[Hlt _]|[-> _]]; [|done].
    exfalso. apply (Hlast (length rs) r Hlt); [|done].
    apply lookup_snoc_Some. by right.
  - intros ->. split.
    + exists r. split; [|done]. apply lookup_snoc_Some. by right.
    + intros j r0 Hj Hr0. apply lookup_snoc_Some in Hr0 as [[? _]|[? _]]; lia.
Qed.

Lemma last_position_snoc_ne rs r id i :
  ID r ≠ id → last_position (rs ++ [r]) id i ↔ last_position rs id i.
Proof.
  intros Hne. split.
  - intros [(r0 & Hr0 & Hid) Hlast].
    apply lookup_snoc_Some in Hr0 as [[Hlt Hr0]|[_ ->]]; [|done].
    split; [by exists r0|]. intros j r1 Hj Hr1. apply (Hlast j r1 Hj).
    apply lookup_snoc_Some. left. split; [by eapply lookup_lt_Some|done].
  - intros [(r0 & Hr0 & Hid) Hlast]. split.
    + exists r0. split; [|done]. apply lookup_snoc_Some. left.
      split; [by eapply lookup_lt_Some|done].
    + intros j r1 Hj Hr1.
      apply lookup_snoc_Some in Hr1 as [[_ Hr1]|[_ <-]]; [by apply (Hlast j r1)|done].
Qed.

(** The rebuilt lookup sends an id to the last position that holds it, and
    knows no other id. *)
Lemma rebuildIdx_last_position rs id i :
  rebuildIdx rs !! id = Some i ↔ last_position rs id i.
Proof.
  revert i. induction rs as [|r rs IH] using rev_ind; intros i.
  - unfold rebuildIdx. simpl. rewrite lookup_empty. split; [done|].
    intros [(r & Hr & _) _]. by rewrite lookup_nil in Hr.
  - rewrite rebuildIdx_snoc. destruct (decide (ID r = id)) as [<-|Hne].
    + rewrite lookup_insert_eq, last_position_snoc_eq.
      split; [by intros [= <-] | by intros ->].
    + rewrite lookup_insert_ne by done. by rewrite IH, last_position_snoc_ne.
Qed.

Lemma rebuildIdx_insert rs i r r' :
  rs !! i = Some r → ID r' = ID r → rebuildIdx (<[i := r']> rs) = rebuildIdx rs.
Proof.
  revert i. induction rs as [|r0 rs IH] using rev_ind; intros i Hi Hid.
  - by rewrite lookup_nil in Hi.
  - destruct (decide (i < length rs)) as [Hlt|Hge].
    + rewrite insert_app_l by done. rewrite !rebuildIdx_snoc, length_insert.
      rewrite lookup_app_l in Hi by done. by rewrite (IH i).
    + pose proof (lookup_lt_Some _ _ _ Hi) as Hl.
      rewrite length_app in Hl. simpl in Hl.
      assert (i = length rs) as -> by lia.
      rewrite lookup_app_r, Nat.sub_diag in Hi by done. simpl in Hi.
      injection Hi as ->.
      rewrite insert_app_r_alt, Nat.sub_diag by done. simpl.
      by rewrite !rebuildIdx_snoc, Hid.
Qed.

(** ** Invariants of the logger *)

Section LoggerInvariants.

Variable json_Marshal : RequestLog → option (list byte).
Variable json_Unmarshal : list byte → option RequestLog.
Variable time_Format : Time → string.

Local Abbreviation record := (LogRequest json_Marshal time_Format).
Local Abbreviation entry_of := (newEntry time_Format).
Local Abbreviation complete := (LogResponse json_Marshal).

Lemma rebuildIdx_sound rs id i :
  rebuildIdx rs !! id = Some i → ∃ r, rs !! i = Some r ∧ ID r = id.
Proof. intros H. by apply rebuildIdx_last_position in H as [? _]. Qed.

Lemma LogRequest_idx_sound l req env :
  idx_sound l → idx_sound (fst (record l req env)).
Proof.
  intros Hs. unfold LogRequest.
  destruct (json_Marshal _) as [data|]; [|done].
  destruct (_ <? _) eqn:Hlt; simpl.
  - intros id i Hi. simpl in *. by apply rebuildIdx_sound in Hi.
  - intros id i. simpl. rewrite length_app. simpl.
    replace (length (requests l) + 1 - 1) with (length (requests l)) by lia.
    destruct (decide (ID (entry_of req env) = id)) as [<-|Hne].
    + rewrite lookup_insert_eq. intros [= <-].
      exists (entry_of req env). by rewrite lookup_app_r, Nat.sub_diag.
    + rewrite lookup_insert_ne by done. intros Hi.
      destruct (Hs id i Hi) as (r & Hr & Hid). exists r. split; [|done].
      rewrite lookup_app_l; [done|]. by apply lookup_lt_Some in Hr.
Qed.

(** What a completion does when the id is in the lookup and the position
    is inside the sequence. *)
Lemma LogResponse_found l id resp ok idx r :
  requestIdx l !! id = Some idx → requests l !! idx = Some r →
  let r' := setResponse r (resp_StatusCode resp)
              (firstValues (resp_Header resp)) (responseBody resp) in
  complete l id (Some resp) ok =
    Some (mkLogger (logsDir l)
            (match json_Marshal r' with
             | Some data => file_Write (logFile l) (data ++ [newline]) ok
             | None => logFile l
             end)
            (<[idx := r']> (requests l)) (requestIdx l)).
Proof.
  intros Hidx Hr. unfold LogResponse. rewrite Hidx, Hr. simpl.
  by destruct (json_Marshal _).
Qed.

Lemma LogResponse_absent l id resp ok :
  requestIdx l !! id = None → complete l id resp ok = Some l.
Proof. intros H. unfold LogResponse. destruct resp; [|done]. by rewrite H. Qed.

Lemma LogResponse_idx_sound l id resp ok l' :
  idx_sound l → complete l id resp ok = Some l' → idx_sound l'.
Proof.
  intros Hs Hc. destruct resp as [resp|]; [|by injection Hc as <-].
  destruct (requestIdx l !! id) as [idx|] eqn:Hidx.
  - destruct (Hs id idx Hidx) as (r & Hr & Hid).
    rewrite (LogResponse_found l id resp ok idx r Hidx Hr) in Hc.
    injection Hc as <-. intros id2 i2 Hi2. simpl in *.
    destruct (Hs id2 i2 Hi2) as (r2 & Hr2 & Hid2).
    destruct (decide (idx = i2)) as [->|Hne].
    + eexists. rewrite list_lookup_insert_eq by by eapply lookup_lt_Some.
      split; [done|]. simpl. congruence.
    + exists r2. by rewrite list_lookup_insert_ne.
  - rewrite LogResponse_absent in Hc by done. by injection Hc as <-.
Qed.

(** On a sound lookup the position is always inside the sequence: the
    completion does not panic. *)
Lemma LogResponse_no_panic l id resp ok :
  idx_sound l → is_Some (complete l id resp ok).
Proof.
  intros Hs. destruct resp as [resp|]; [|by eexists].
  destruct (requestIdx l !! id) as [idx|] eqn:Hidx.
  - destruct (Hs id idx Hidx) as (r & Hr & Hid).
    rewrite (LogResponse_found l id resp ok idx r Hidx Hr). by eexists.
  - rewrite LogResponse_absent by done. by eexists.
Qed.

Lemma NewLogger_requestIdx dir rd l :
  NewLogger json_Unmarshal dir true rd = Some l → requestIdx l = ∅.
Proof. unfold NewLogger. intros [= <-]. by destruct rd. Qed.

Lemma reachable_idx_sound l :
  reachable json_Marshal time_Format json_Unmarshal l → idx_sound l.
Proof.
  induction 1 as [dir rd l Hnew|l req env _ IH|l id resp ok l' _ IH Hc].
  - intros id i. by rewrite (NewLogger_requestIdx dir rd l Hnew), lookup_empty.
  - by apply LogRequest_idx_sound.
  - by eapply LogResponse_idx_sound.
Qed.

(** *** Runs of [LogRequest] *)

Lemma LogRequest_sublist l req env :
  sublist (requests (fst (record l req env))) (requests l ++ [entry_of req env]).
Proof.
  destruct (json_Marshal (entry_of req env)) as [data|] eqn:Hm.
  - rewrite (LogRequest_requests _ _ _ _ _ data Hm). apply lastn_sublist.
  - rewrite LogRequest_not_marshalled by done. by apply sublist_inserts_r.
Qed.

Lemma record_all_sublist l calls :
  sublist (requests (record_all json_Marshal time_Format l calls))
          (requests l ++ entries_of time_Format calls).
Proof.
  revert l. induction calls as [|[req env] calls IH]; intros l; simpl.
  - by rewrite app_nil_r.
  - etrans; [apply IH|]. rewrite (cons_middle _ (requests l)), app_assoc.
    apply sublist_app; [|done]. apply LogRequest_sublist.
Qed.

Lemma record_all_bounded l calls :
  length (requests l) ≤ workingSetLimit →
  length (requests (record_all json_Marshal time_Format l calls)) ≤ workingSetLimit.
Proof.
  revert l. induction calls as [|[req env] calls IH]; intros l Hl; simpl; [done|].
  apply IH. destruct (json_Marshal (entry_of req env)) as [data|] eqn:Hm.
  - rewrite (LogRequest_requests _ _ _ _ _ data Hm), length_lastn. lia.
  - by rewrite LogRequest_not_marshalled.
Qed.

Hypothesis marshal_total : ∀ e, is_Some (json_Marshal e).

Lemma LogRequest_requests_total l req env :
  requests (fst (record l req env))
    = lastn workingSetLimit (requests l ++ [entry_of req env]).
Proof.
  destruct (marshal_total (entry_of req env)) as [data Hm].
  by apply (LogRequest_requests _ _ _ _ _ data).
Qed.

Lemma record_all_requests l c calls :
  requests (record_all json_Marshal time_Format l (c :: calls))
    = lastn workingSetLimit (requests l ++ entries_of time_Format (c :: calls)).
Proof.
  revert l c. induction calls as [|c' calls IH]; intros l [req env].
  - simpl. apply LogRequest_requests_total.
  - change (record_all json_Marshal time_Format l ((req, env) :: c' :: calls))
      with (record_all json_Marshal time_Format
              (fst (record l req env)) (c' :: calls)).
    rewrite IH, LogRequest_requests_total, lastn_lastn_app.
    by rewrite <- app_assoc.
Qed.

End LoggerInvariants.

(** ** Ids *)

Lemma hexdigit_decode (b : byte) :
  byte_of_N (16 * hex_value (hexdigit (N.shiftr (Byte.to_N b) 4))
             + hex_value (hexdigit (N.land (Byte.to_N b) 15))) = b.
Proof. destruct b; reflexivity. Qed.

Lemma hex_Encode_inj (l l' : list byte) : hex_Encode l = hex_Encode l' → l = l'.
Proof.
  revert l'. induction l as [|b l IH]; intros [|b' l'] H; simpl in H;
    try discriminate; [done|].
  injection H as Hhi Hlo Hrest. f_equal; [|by apply IH].
  rewrite <- (hexdigit_decode b), <- (hexdigit_decode b'). by rewrite Hhi, Hlo.
Qed.

Lemma hex_Encode_length (l : list byte) : String.length (hex_Encode l) = 2 * length l.
Proof. induction l as [|b l IH]; simpl; [done|]. rewrite IH. lia. Qed.

(** The id is the hexadecimal rendering of the first four random bytes. *)
Lemma newEntry_ID time_Format req env :
  ID (newEntry time_Format req env) = hex_Encode (prefix32 (env_rand env)).
Proof. reflexivity. Qed.

(** ** Redaction (C1) *)





(** ** Ids of the working set (C2) *)

(** C2 (as amended): an id is the 8-digit hexadecimal rendering of the first
    32 random bits of a fresh UUID, so two ids are equal exactly when those 32
    bits are; [LogRequest] does not look for an id already in use.  Starting
    from an empty working set, the ids retained after any sequence of calls
    are pairwise distinct whenever the 32-bit prefixes drawn by the calls
    are. *)
Theorem ids_distinct_when_prefixes_distinct
    (json_Marshal : RequestLog → option (list byte)) (time_Format : Time → string)
    (dir : string) (calls : list (Request * Env)) :
  NoDup (map (λ c, prefix32 (env_rand (snd c))) calls) →
  NoDup (map ID (GetRequests
                   (record_all json_Marshal time_Format (mkLogger dir [] [] ∅) calls)))
  ∧ (∀ req env req' env',
       ID (newEntry time_Format req env) = ID (newEntry time_Format req' env')
       ↔ prefix32 (env_rand env) = prefix32 (env_rand env'))
  ∧ (∀ req env, String.length (ID (newEntry time_Format req env)) = 8).
Proof.
  intros Hnd. split; [|split].
  - unfold GetRequests.
    apply (sublist_NoDup _ (map ID (entries_of time_Format calls))).
    + unfold entries_of.
      replace (map ID (map (λ c, newEntry time_Format (fst c) (snd c)) calls))
        with (map hex_Encode (map (λ c, prefix32 (env_rand (snd c))) calls)).
      * apply (NoDup_fmap_2_strong hex_Encode); [|done].
        intros x y _ _. apply hex_Encode_inj.
      * rewrite !map_map. apply map_ext. intros c. by rewrite newEntry_ID.
    + apply (fmap_sublist ID).
      apply (record_all_sublist json_Marshal time_Format (mkLogger dir [] [] ∅)).
  - intros req env req' env'. rewrite !newEntry_ID. split.
    + apply hex_Encode_inj.
    + by intros ->.
  - intros req env. by rewrite newEntry_ID, hex_Encode_length.
Qed.

Lemma ids_distinct_when_prefixes_distinct_witness :
  NoDup (map ID (GetRequests
    (record_all line_Marshal line_Format (mkLogger "/logs" [] [] ∅)
       [(getA, env_with x01); (getA, env_with x02)]))).
Proof.
  refine (proj1 (ids_distinct_when_prefixes_distinct line_Marshal line_Format
            "/logs" [(getA, env_with x01); (getA, env_with x02)] _)).
  simpl. apply NoDup_cons. split.
  - intros H. apply list_elem_of_singleton in H. discriminate H.
  - apply NoDup_singleton.
Defined.

(** C2 as stated fails: two calls that draw the same 32-bit prefix leave two
    records with the same id in the working set. *)
Lemma duplicate_ids_retained :
  let l := record_all line_Marshal line_Format emptyLogger
             [(getA, env0); (getA, env0)] in
  length (GetRequests l) = 2 ∧ ¬ NoDup (map ID (GetRequests l)).
Proof.
  intros l. subst l.
  assert (GetRequests (record_all line_Marshal line_Format emptyLogger
                         [(getA, env0); (getA, env0)])
          = [newEntry line_Format getA env0; newEntry line_Format getA env0]) as ->.
  { unfold GetRequests. rewrite record_all_requests by (by eexists).
    by apply lastn_short; simpl; unfold workingSetLimit; lia. }
  split; [done|]. simpl. intros H. apply NoDup_cons in H as [Hnin _].
  apply Hnin. apply list_elem_of_here.
Qed.

(** ** Working-set bound (C3) *)

(** C3: when every record can be rendered, the working set holds at most
    1000 records after any call of [LogRequest], and a run of calls keeps it
    so; after 1500 calls in a row the snapshot is exactly the last 1000
    entries created, in creation order; and after a call that evicts, the
    lookup sends every retained id to the last position that holds it and
    contains nothing else. *)
Theorem working_set_bounded
    (json_Marshal : RequestLog → option (list byte)) (time_Format : Time → string) :
  (∀ e, is_Some (json_Marshal e)) →
  (∀ l req env,
     length (GetRequests (fst (LogRequest json_Marshal time_Format l req env))) ≤ 1000)
  ∧ (∀ l calls, length (requests l) ≤ 1000 →
       length (GetRequests (record_all json_Marshal time_Format l calls)) ≤ 1000)
  ∧ (∀ l calls, length calls = 1500 →
       GetRequests (record_all json_Marshal time_Format l calls)
         = drop 500 (entries_of time_Format calls)
       ∧ length (GetRequests (record_all json_Marshal time_Format l calls)) = 1000)
  ∧ (∀ l req env, 1000 ≤ length (requests l) →
       let l' := fst (LogRequest json_Marshal time_Format l req env) in
       ∀ id i, requestIdx l' !! id = Some i ↔ last_position (requests l') id i).
Proof.
  intros Hm. split; [|split; [|split]].
  - intros l req env. unfold GetRequests.
    rewrite LogRequest_requests_total, length_lastn by done.
    unfold workingSetLimit. lia.
  - intros l calls Hl. by apply record_all_bounded.
  - intros l calls Hlen.
    assert (GetRequests (record_all json_Marshal time_Format l calls)
            = drop 500 (entries_of time_Format calls)) as Heq.
    { destruct calls as [|c calls]; [simpl in Hlen; lia|].
      unfold GetRequests. rewrite record_all_requests by done.
      rewrite lastn_app_r.
      - unfold lastn, entries_of. rewrite length_map, Hlen. done.
      - unfold entries_of. rewrite length_map, Hlen. unfold workingSetLimit. lia. }
    split; [done|]. rewrite Heq, length_drop. unfold entries_of.
    rewrite length_map, Hlen. done.
  - intros l req env Hl l' id i. subst l'. unfold LogRequest.
    destruct (Hm (newEntry time_Format req env)) as [data ->].
    assert ((workingSetLimit <? length (requests l ++ [newEntry time_Format req env]))
            = true) as ->.
    { apply Nat.ltb_lt. rewrite length_app. simpl. unfold workingSetLimit. lia. }
    simpl. apply rebuildIdx_last_position.
Qed.

Lemma line_Marshal_total : ∀ e, is_Some (line_Marshal e).
Proof. intros e. by eexists. Qed.

Lemma working_set_bounded_witness :
  length (GetRequests (record_all line_Marshal line_Format emptyLogger
                         (replicate 1500 (getA, env0)))) = 1000.
Proof.
  refine (proj2 (proj1 (proj2 (proj2
            (working_set_bounded line_Marshal line_Format line_Marshal_total)))
            emptyLogger (replicate 1500 (getA, env0)) _)).
  apply length_replicate.
Defined.

(** ** Body cap (C6) and methods without a logged body (C10) *)

Lemma string_of_bytes_length (b : list byte) :
  String.length (string_of_bytes b) = length b.
Proof.
  unfold string_of_bytes, string_of_list_byte.
  induction b as [|x b IH]; simpl; [done|]. by rewrite IH.
Qed.

Lemma string_app_length (s t : string) :
  String.length (s +:+ t) = String.length s + String.length t.
Proof. induction s as [|c s IH]; simpl; [done|]. by rewrite IH. Qed.

Lemma capBody_small (b : list byte) :
  length b ≤ 10 * 1024 → capBody b = string_of_bytes b.
Proof.
  intros H. unfold capBody.
  assert ((bodyLimit <? length b) = false) as ->; [|done].
  apply Nat.ltb_ge. unfold bodyLimit. lia.
Qed.

Lemma capBody_large (b : list byte) :
  10 * 1024 < length b →
  capBody b = string_of_bytes (take (10 * 1024) b) +:+ "... [truncated]".
Proof.
  intros H. unfold capBody.
  assert ((bodyLimit <? length b) = true) as ->; [|done].
  apply Nat.ltb_lt. unfold bodyLimit. lia.
Qed.

Lemma capBody_length (b : list byte) :
  String.length (capBody b) ≤ 10 * 1024 + 15.
Proof.
  destruct (decide (length b ≤ 10 * 1024)) as [Hle|Hgt].
  - rewrite capBody_small, string_of_bytes_length by done. lia.
  - rewrite capBody_large by lia.
    rewrite string_app_length, string_of_bytes_length, length_take.
    change (String.length "... [truncated]") with 15. lia.
Qed.

Lemma last_lastn_snoc {A} (n : nat) (l : list A) (x : A) :
  1 ≤ n → last (lastn n (l ++ [x])) = Some x.
Proof.
  intros Hn. unfold lastn. rewrite length_app. simpl.
  rewrite drop_app_le by lia. apply last_snoc.
Qed.




(** C10: for a request whose method is not POST, PUT or PATCH, [LogRequest]
    creates an entry with an empty body, whatever body the request carries,
    and that entry is the one stored in the working set; a non-empty logged
    body implies one of the three methods. *)
Theorem other_methods_log_no_body
    (json_Marshal : RequestLog → option (list byte)) (time_Format : Time → string)
    (l : Logger) (req : Request) (env : Env) :
  req_Method req ≠ "POST" → req_Method req ≠ "PUT" → req_Method req ≠ "PATCH" →
  let res := LogRequest json_Marshal time_Format l req env in
  Body (snd res) = ""
  ∧ (∀ data, json_Marshal (snd res) = Some data →
       last (GetRequests (fst res)) = Some (snd res))
  ∧ (∀ req', Body (snd (LogRequest json_Marshal time_Format l req' env)) ≠ "" →
       req_Method req' = "POST" ∨ req_Method req' = "PUT" ∨ req_Method req' = "PATCH").
Proof.
  intros H1 H2 H3 res. subst res. rewrite LogRequest_entry. split; [|split].
  - simpl. unfold requestBody, body_method.
    rewrite !bool_decide_eq_false_2 by done. simpl. by destruct (req_Body req).
  - intros data Hm. unfold GetRequests.
    rewrite (LogRequest_requests _ _ _ _ _ data Hm).
    apply last_lastn_snoc. unfold workingSetLimit. lia.
  - intros req'. rewrite LogRequest_entry. simpl. unfold requestBody, body_method.
    destruct (decide (req_Method req' = "POST")) as [|N1]; [by left|].
    destruct (decide (req_Method req' = "PUT")) as [|N2]; [by right; left|].
    destruct (decide (req_Method req' = "PATCH")) as [|N3]; [by right; right|].
    rewrite !bool_decide_eq_false_2 by done. simpl.
    by destruct (req_Body req').
Qed.

Lemma other_methods_log_no_body_witness :
  Body (snd (LogRequest line_Marshal line_Format emptyLogger getWithBody env0)) = "".
Proof.
  refine (proj1 (other_methods_log_no_body line_Marshal line_Format emptyLogger
                   getWithBody env0 _ _ _)); discriminate.
Defined.

(** ** Completions (C5, C7) *)

(** C7: on a logger the program can reach, [LogResponse] with an id that the
    lookup does not know, or that no retained record carries, returns
    normally and leaves the logger as it was: the same records, the same
    lookup, the same durable bytes. *)
Theorem LogResponse_unknown_id_noop
    (json_Marshal : RequestLog → option (list byte))
    (json_Unmarshal : list byte → option RequestLog) (time_Format : Time → string)
    (l : Logger) (id : string) (resp : option Response) (ok : bool) :
  reachable json_Marshal time_Format json_Unmarshal l →
  requestIdx l !! id = None ∨ (∀ r, r ∈ requests l → ID r ≠ id) →
  LogResponse json_Marshal l id resp ok = Some l.
Proof.
  intros Hreach Habs. apply LogResponse_absent.
  destruct Habs as [Hnone|Hnot]; [done|].
  destruct (requestIdx l !! id) as [i|] eqn:Hi; [|done]. exfalso.
  destruct (reachable_idx_sound _ _ _ l Hreach id i Hi) as (r & Hr & Hid).
  apply (Hnot r); [|done]. by eapply list_elem_of_lookup_2.
Qed.

Lemma reachable_emptyLogger :
  reachable line_Marshal line_Format line_Unmarshal emptyLogger.
Proof. by apply (reach_new _ _ _ "/logs" FileNotExist). Defined.

Lemma reachable_loggerA :
  reachable line_Marshal line_Format line_Unmarshal loggerA.
Proof. apply reach_request, reachable_emptyLogger. Defined.

Lemma LogResponse_unknown_id_noop_witness :
  LogResponse line_Marshal loggerA "deadbeef" (Some ok200) true = Some loggerA.
Proof.
  refine (LogResponse_unknown_id_noop line_Marshal line_Unmarshal line_Format
            loggerA "deadbeef" (Some ok200) true reachable_loggerA _).
  right. intros r Hr. apply list_elem_of_singleton in Hr. subst r. discriminate.
Defined.

Lemma setResponse_again r s1 h1 b1 s2 h2 b2 :
  setResponse (setResponse r s1 h1 b1) s2 h2 b2 = setResponse r s2 h2 b2.
Proof. reflexivity. Qed.

(** C5 (as amended): the logger keeps no mark of a completion.  Every
    [LogResponse] with a response, for an id in the lookup of a reachable
    logger, overwrites the three response fields of the indexed record with
    those of that response, leaves the request fields, every other record
    and the lookup as they were, and appends the updated record as one
    durable line when it can be rendered; a second completion for the same
    id does the same again, so the record ends up as if only the second had
    been applied, and a second line is appended. *)
Theorem LogResponse_overwrites
    (json_Marshal : RequestLog → option (list byte))
    (json_Unmarshal : list byte → option RequestLog) (time_Format : Time → string)
    (l : Logger) (id : string) (resp1 resp2 : Response) (ok1 ok2 : bool)
    (idx : nat) :
  reachable json_Marshal time_Format json_Unmarshal l →
  requestIdx l !! id = Some idx →
  ∃ r l1 l2,
    let r1 := setResponse r (resp_StatusCode resp1)
                (firstValues (resp_Header resp1)) (responseBody resp1) in
    let r2 := setResponse r (resp_StatusCode resp2)
                (firstValues (resp_Header resp2)) (responseBody resp2) in
    requests l !! idx = Some r ∧ ID r = id
    ∧ LogResponse json_Marshal l id (Some resp1) ok1 = Some l1
    ∧ requests l1 = <[idx := r1]> (requests l)
    ∧ requestIdx l1 = requestIdx l
    ∧ (∀ data, json_Marshal r1 = Some data →
         logFile l1 = file_Write (logFile l) (data ++ [newline]) ok1)
    ∧ LogResponse json_Marshal l1 id (Some resp2) ok2 = Some l2
    ∧ requests l2 = <[idx := r2]> (requests l)
    ∧ requestIdx l2 = requestIdx l
    ∧ (∀ data, json_Marshal r2 = Some data →
         logFile l2 = file_Write (logFile l1) (data ++ [newline]) ok2).
Proof.
  intros Hreach Hidx.
  destruct (reachable_idx_sound _ _ _ l Hreach id idx Hidx) as (r & Hr & Hid).
  pose proof (LogResponse_found json_Marshal l id resp1 ok1 idx r Hidx Hr) as H1.
  cbv zeta in H1.
  match type of H1 with _ = Some ?x => set (l1 := x) in * end.
  assert (requests l1 !! idx
          = Some (setResponse r (resp_StatusCode resp1)
                    (firstValues (resp_Header resp1)) (responseBody resp1))) as Hr1.
  { subst l1. simpl. apply list_lookup_insert_eq. by eapply lookup_lt_Some. }
  pose proof (LogResponse_found json_Marshal l1 id resp2 ok2 idx _ Hidx Hr1) as H2.
  cbv zeta in H2. rewrite setResponse_again in H2.
  exists r, l1. eexists. cbv zeta.
  split; [done|]. split; [done|]. split; [exact H1|]. split; [done|].
  split; [done|].
  split; [intros data Hd; subst l1; simpl; by rewrite Hd|].
  split; [exact H2|]. simpl.
  split; [by rewrite list_insert_insert_eq|]. split; [done|].
  intros data Hd. by rewrite Hd.
Qed.

Lemma loggerA_lookup : requestIdx loggerA !! idA = Some 0.
Proof. unfold loggerA, idA. simpl. apply lookup_insert_eq. Qed.

Lemma LogResponse_overwrites_witness :
  ∃ r l1 l2,
    requests loggerA !! 0 = Some r
    ∧ LogResponse line_Marshal loggerA idA (Some ok200) true = Some l1
    ∧ LogResponse line_Marshal l1 idA (Some err500) true = Some l2
    ∧ requests l2
      = <[0 := setResponse r 500%Z (firstValues ∅) ""]> (requests loggerA).
Proof.
  destruct (LogResponse_overwrites line_Marshal line_Unmarshal line_Format
              loggerA idA ok200 err500 true true 0 reachable_loggerA loggerA_lookup)
    as (r & l1 & l2 & Hr & _ & H1 & _ & _ & _ & H2 & Hrs & _).
  exists r, l1, l2. repeat split; assumption.
Defined.

(** C5 as stated fails: a second completion for the same id alters the
    record again and appends a further durable line. *)
Lemma second_completion_alters_record :
  ∃ l1 l2,
    LogResponse line_Marshal loggerA idA (Some ok200) true = Some l1
    ∧ LogResponse line_Marshal l1 idA (Some err500) true = Some l2
    ∧ ResponseStatus <$> requests l1 !! 0 = Some 200%Z
    ∧ ResponseStatus <$> requests l2 !! 0 = Some 500%Z
    ∧ requests l2 ≠ requests l1
    ∧ length (logFile l2) = length (logFile l1) + 11.
Proof.
  pose proof (LogResponse_found line_Marshal loggerA idA ok200 true 0
                (newEntry line_Format getA env0) loggerA_lookup eq_refl) as H1.
  simpl in H1.
  match type of H1 with _ = Some ?x => set (l1 := x) in * end.
  pose proof (LogResponse_found line_Marshal l1 idA err500 true 0
                (setResponse (newEntry line_Format getA env0) 200%Z (firstValues ∅) "")
                loggerA_lookup eq_refl) as H2.
  simpl in H2.
  match type of H2 with _ = Some ?x => set (l2 := x) in * end.
  exists l1, l2. split; [exact H1|]. split; [exact H2|].
  split; [reflexivity|]. split; [reflexivity|]. split; [|reflexivity].
  intros Heq. discriminate Heq.
Qed.

(** ** Restoring the working set (C4) *)

Lemma slice_same data i : slice data i i = [].
Proof. unfold slice. by rewrite Nat.sub_diag. Qed.

Lemma slice_to_end data start :
  slice data start (length data) = drop start data.
Proof. unfold slice. apply take_ge. by rewrite length_drop. Qed.

Lemma slice_snoc data start i b :
  start ≤ i → data !! i = Some b →
  slice data start (S i) = slice data start i ++ [b].
Proof.
  intros Hle Hb. unfold slice.
  replace (S i - start) with (S (i - start)) by lia.
  apply take_S_r. rewrite lookup_drop. by replace (start + (i - start)) with i by lia.
Qed.

Lemma splitLines_loop_lines_of data pre rest start lines :
  data = pre ++ rest → start ≤ length pre →
  (let '(lines', start') := splitLines_loop data rest (length pre) start lines in
   if start' <? length data then lines' ++ [drop start' data] else lines')
  = lines ++ lines_of (slice data start (length pre)) rest.
Proof.
  revert pre start lines. induction rest as [|b rest IH]; intros pre start lines Hd Hs.
  - simpl. rewrite app_nil_r in Hd. subst pre. rewrite slice_to_end.
    destruct (start <? length data) eqn:Hlt.
    + apply Nat.ltb_lt in Hlt. destruct (drop start data) eqn:Hdrop; [|done].
      apply (f_equal length) in Hdrop. rewrite length_drop in Hdrop.
      simpl in Hdrop. lia.
    + apply Nat.ltb_ge in Hlt. rewrite drop_ge by done. by rewrite app_nil_r.
  - assert (data = (pre ++ [b]) ++ rest) as Hd' by (by rewrite <- app_assoc).
    assert (length (pre ++ [b]) = S (length pre)) as Hlen
      by (rewrite length_app; simpl; lia).
    simpl. destruct (Byte.eqb b newline) eqn:Hb.
    + rewrite <- Hlen. rewrite (IH (pre ++ [b]) _ _ Hd') by done.
      by rewrite slice_same, <- app_assoc.
    + rewrite <- Hlen. rewrite (IH (pre ++ [b]) _ _ Hd') by lia.
      rewrite Hlen. f_equal. f_equal. apply slice_snoc; [done|].
      rewrite Hd. by rewrite lookup_app_r, Nat.sub_diag.
Qed.

Lemma splitLines_lines_of data : splitLines data = lines_of [] data.
Proof.
  unfold splitLines.
  pose proof (splitLines_loop_lines_of data [] data 0 [] eq_refl (Nat.le_refl _)) as H.
  simpl in H. destruct (splitLines_loop data data 0 0 []) as [lines' start'].
  rewrite H. by rewrite slice_same.
Qed.

Lemma lines_of_line cur line rest :
  Forall (λ b, Byte.eqb b newline = false) line →
  lines_of cur (line ++ newline :: rest) = (cur ++ line) :: lines_of [] rest.
Proof.
  revert cur. induction line as [|b line IH]; intros cur Hl; simpl.
  - by rewrite app_nil_r.
  - apply Forall_cons in Hl as [Hb Hl]. rewrite Hb, IH by done.
    by rewrite <- app_assoc.
Qed.

Lemma lines_of_last cur line :
  Forall (λ b, Byte.eqb b newline = false) line → cur ++ line ≠ [] →
  lines_of cur line = [cur ++ line].
Proof.
  revert cur. induction line as [|b line IH]; intros cur Hl Hne; simpl.
  - rewrite app_nil_r in *. by destruct cur.
  - apply Forall_cons in Hl as [Hb Hl]. rewrite Hb, IH; [|done|].
    + by rewrite <- app_assoc.
    + rewrite <- app_assoc. done.
Qed.

Lemma lines_of_concat (ls : list (list byte)) :
  Forall (Forall (λ b, Byte.eqb b newline = false)) ls →
  lines_of [] (concat (map (λ line, line ++ [newline]) ls)) = ls.
Proof.
  induction 1 as [|line ls Hline _ IH]; simpl; [done|].
  rewrite <- app_assoc. simpl. by rewrite lines_of_line, IH.
Qed.

Section Restore.

Variable json_Unmarshal : list byte → option RequestLog.

Local Abbreviation parse_line := (parse_line json_Unmarshal).

Lemma load_lines_omap lines rs :
  load_lines json_Unmarshal lines rs = rs ++ omap parse_line lines.
Proof.
  revert rs. induction lines as [|line lines IH]; intros rs; simpl.
  - by rewrite app_nil_r.
  - unfold parse_line at 1. destruct (length line =? 0); [by apply IH|].
    destruct (json_Unmarshal line) as [req|]; [|by apply IH].
    rewrite IH. by rewrite <- app_assoc.
Qed.

(** The restore keeps every line that parses, in file order, skips the
    others, and does not touch the lookup. *)
Lemma loadExistingLogs_requests l data :
  requests (fst (loadExistingLogs json_Unmarshal l (FileData data)))
    = requests l ++ omap parse_line (lines_of [] data)
  ∧ requestIdx (fst (loadExistingLogs json_Unmarshal l (FileData data)))
    = requestIdx l.
Proof. simpl. by rewrite load_lines_omap, splitLines_lines_of. Qed.

(** A file of one well-formed line and one garbled line restores to the
    well-formed record alone, whichever comes first. *)
Lemma restore_one_good_one_garbled dir good garbled r :
  Forall (λ b, Byte.eqb b newline = false) good →
  Forall (λ b, Byte.eqb b newline = false) garbled →
  good ≠ [] → json_Unmarshal good = Some r → json_Unmarshal garbled = None →
  (∀ l, NewLogger json_Unmarshal dir true
          (FileData (good ++ newline :: garbled ++ [newline])) = Some l →
        requests l = [r])
  ∧ (∀ l, NewLogger json_Unmarshal dir true
          (FileData (garbled ++ newline :: good ++ [newline])) = Some l →
        requests l = [r]).
Proof.
  intros Hg Hb Hne Hgood Hbad.
  assert (parse_line good = Some r) as Pg.
  { unfold parse_line. by destruct good. }
  assert (parse_line garbled = None) as Pb.
  { unfold parse_line. by destruct (length garbled =? 0). }
  split; intros l [= <-]; simpl;
    rewrite load_lines_omap, splitLines_lines_of;
    rewrite !lines_of_line by done; simpl; by rewrite Pg, Pb.
Qed.

(** A file of newline-terminated lines restores to the records of the lines
    that parse, in file order, however many they are; a line that is empty
    or does not parse is passed over and the lines after it are still
    read. *)
Lemma restore_keeps_every_parseable_line dir ls l :
  Forall (Forall (λ b, Byte.eqb b newline = false)) ls →
  NewLogger json_Unmarshal dir true
    (FileData (concat (map (λ line, line ++ [newline]) ls))) = Some l →
  requests l = omap parse_line ls ∧ requestIdx l = ∅.
Proof.
  intros Hls [= <-]. simpl.
  by rewrite load_lines_omap, splitLines_lines_of, lines_of_concat.
Qed.

End Restore.

(** C4, where the code departs from it: a durable file of 1001 well-formed
    lines restores to a working set of 1001 records, above the bound of
    1000, and to an empty lookup. *)
Theorem loadExistingLogs_keeps_every_line :
  ∃ l, NewLogger line_Unmarshal "/logs" true (FileData (file_of_lines 1001)) = Some l
    ∧ length (GetRequests l) = 1001
    ∧ workingSetLimit = 1000
    ∧ requestIdx l = ∅.
Proof.
  exists (fst (loadExistingLogs line_Unmarshal (mkLogger "/logs" [] [] ∅)
                 (FileData (file_of_lines 1001)))).
  destruct (loadExistingLogs_requests line_Unmarshal (mkLogger "/logs" [] [] ∅)
              (file_of_lines 1001)) as [Hr Hi].
  split; [done|]. split; [|split; [reflexivity|]].
  - unfold GetRequests. rewrite Hr. vm_compute. reflexivity.
  - by rewrite Hi.
Qed.

(** ** Capture-file download (C8) *)

Lemma substring_all (s : string) : String.substring 0 (String.length s) s = s.
Proof. induction s as [|c s IH]; simpl; [done|]. by rewrite IH. Qed.

Lemma TrimPrefix_api (name : string) :
  TrimPrefix ("/api/pcap/" +:+ name) "/api/pcap/" = name.
Proof.
  unfold TrimPrefix, HasPrefix.
  change ("/api/pcap/" +:+ name)
    with (String "/" (String "a" (String "p" (String "i" (String "/"
         (String "p" (String "c" (String "a" (String "p" (String "/" name)))))))))).
  simpl. replace (String.prefix "" name) with true by (by destruct name).
  rewrite Nat.sub_0_r. apply substring_all.
Qed.

Lemma lastElement_no_separator (r : list ascii) :
  Forall (λ c, IsPathSeparator c = false) (lastElement r).
Proof.
  induction r as [|c r IH]; simpl; [done|].
  destruct (IsPathSeparator c) eqn:Hc; [done|]. by apply Forall_cons.
Qed.

Lemma existsb_no_separator (l : list ascii) :
  Forall (λ c, IsPathSeparator c = false) l → existsb IsPathSeparator l = false.
Proof. induction 1 as [|c l Hc _ IH]; simpl; [done|]. by rewrite Hc, IH. Qed.

(** [Base] answers the separator itself or a name without any separator. *)
Lemma Base_no_separator (path : string) :
  Base path = "/" ∨ has_separator (Base path) = false.
Proof.
  unfold Base. destruct path as [|c path]; [by right|].
  pose proof (lastElement_no_separator
                (stripSeparators (rev (list_ascii_of_string (String c path))))) as H.
  destruct (lastElement _) as [|e es]; [by left|]. right.
  unfold has_separator. rewrite list_ascii_of_string_of_list_ascii.
  apply existsb_no_separator. by apply Forall_rev.
Qed.

Lemma Base_pcap_no_separator (path : string) :
  HasSuffix (Base path) ".pcap" = true → has_separator (Base path) = false.
Proof.
  intros Hs. destruct (Base_no_separator path) as [Hb|Hb]; [|done].
  rewrite Hb in Hs. discriminate Hs.
Qed.

Lemma lastElement_plain (r : list ascii) :
  existsb IsPathSeparator r = false → lastElement r = r.
Proof.
  induction r as [|c r IH]; simpl; [done|].
  destruct (IsPathSeparator c); [done|]. simpl. intros H. by rewrite IH.
Qed.

Lemma stripSeparators_plain (r : list ascii) :
  existsb IsPathSeparator r = false → stripSeparators r = r.
Proof. destruct r as [|c r]; simpl; [done|]. by destruct (IsPathSeparator c). Qed.

Lemma existsb_rev {A} (f : A → bool) (l : list A) :
  existsb f (rev l) = existsb f l.
Proof.
  induction l as [|x l IH]; simpl; [done|].
  rewrite existsb_app, IH. simpl. rewrite orb_false_r. apply orb_comm.
Qed.

(** A non-empty name without a separator is its own base. *)
Lemma Base_plain (name : string) :
  name ≠ "" → has_separator name = false → Base name = name.
Proof.
  unfold has_separator, Base. intros Hne Hs.
  destruct name as [|c name]; [done|].
  set (l := list_ascii_of_string (String c name)) in *.
  assert (existsb IsPathSeparator (rev l) = false) as Hr by (by rewrite existsb_rev).
  rewrite stripSeparators_plain, lastElement_plain by done.
  destruct (rev l) as [|e es] eqn:Hrev.
  - apply (f_equal (@length _)) in Hrev. rewrite length_rev in Hrev. discriminate Hrev.
  - rewrite <- Hrev, rev_involutive. subst l.
    apply string_of_list_ascii_of_string.
Qed.

(** C8 (as amended): the handler does not reject a name for holding a path
    separator; it reduces the name to its last path element before any
    storage access.  The empty name, and a name whose last element does not
    end in [.pcap], get a bad-request outcome and no storage access.  Any
    other name leads to exactly one storage query, on [logsDir] joined with
    that last element, which holds no separator; a missing file gets the
    not-found outcome with its fixed text, and an existing one is served
    from that path.  For a name without a separator the last element is the
    name itself. *)
Theorem handlePcapDownload_outcomes
    (filepath_Join : string → string → string) (os_Stat : string → StatResult)
    (logsDir name : string) :
  let res := handlePcapDownload filepath_Join os_Stat logsDir ("/api/pcap/" +:+ name) in
  let pcapPath := filepath_Join logsDir (Base name) in
  ((name = "" ∨ HasSuffix (Base name) ".pcap" = false)
     → (∃ msg, fst res = BadRequest msg) ∧ snd res = [])
  ∧ ((name ≠ "" ∧ HasSuffix (Base name) ".pcap" = true)
     → snd res = [pcapPath]
       ∧ has_separator (Base name) = false
       ∧ (os_Stat pcapPath = StatNotExist → fst res = NotFound "PCAP file not found")
       ∧ (os_Stat pcapPath ≠ StatNotExist → fst res = ServeFile pcapPath (Base name)))
  ∧ (name ≠ "" → has_separator name = false → Base name = name).
Proof.
  intros res pcapPath. subst res pcapPath. unfold handlePcapDownload.
  rewrite TrimPrefix_api. split; [|split].
  - intros [->|Hs]; [simpl; eauto|].
    destruct (String.eqb name "") eqn:He; [simpl; eauto|].
    rewrite Hs. simpl. eauto.
  - intros [Hne Hs].
    assert (String.eqb name "" = false) as -> by (by apply String.eqb_neq).
    rewrite Hs. simpl.
    split; [by destruct (os_Stat _)|]. split; [by apply Base_pcap_no_separator|].
    split; [by intros ->|]. intros Hst. by destruct (os_Stat _).
  - apply Base_plain.
Qed.

Lemma handlePcapDownload_outcomes_witness :
  fst (handlePcapDownload join_plain no_files "/logs"
         ("/api/pcap/" +:+ "capture_1.pcap"))
    = NotFound "PCAP file not found".
Proof.
  destruct (handlePcapDownload_outcomes join_plain no_files "/logs" "capture_1.pcap")
    as (_ & H & _).
  destruct H as (_ & _ & Hnf & _); [split; [discriminate|reflexivity]|].
  exact (Hnf eq_refl).
Defined.

(** C8 as stated fails: a name that holds a path separator, and one that
    does not end in [.pcap], are not rejected; the storage is asked about
    their last element. *)
Lemma name_with_separator_not_rejected :
  has_separator "a/b.pcap" = true
  ∧ handlePcapDownload join_plain no_files "/logs" "/api/pcap/a/b.pcap"
    = (NotFound "PCAP file not found", ["/logs/b.pcap"])
  ∧ HasSuffix "b.pcap/" ".pcap" = false
  ∧ handlePcapDownload join_plain no_files "/logs" "/api/pcap/b.pcap/"
    = (NotFound "PCAP file not found", ["/logs/b.pcap"]).
Proof. repeat split. Qed.

(** ** The root CA survives a reload (C9) *)

Section CAFacts.

Context {PrivateKey PublicKey Certificate : Type}.

Variable rsa_GenerateKey : N → nat → option PrivateKey.
Variable key_PublicKey : PrivateKey → PublicKey.
Variable rand_Int : N → Z → option Z.
Variable time_AddDate : Time → Z → Z → Z → Time.
Variable x509_CreateCertificate :
  N → CertTemplate → CertTemplate → PublicKey → PrivateKey → option (list byte).
Variable x509_ParseCertificate : list byte → option Certificate.
Variable x509_MarshalPKCS1PrivateKey : PrivateKey → list byte.
Variable x509_ParsePKCS1PrivateKey : list byte → option PrivateKey.
Variable pem_EncodeToMemory : string → list byte → list byte.
Variable pem_Decode : list byte → option (list byte).
Variable filepath_Join : string → string → string.

Local Abbreviation load :=
  (loadCA PrivateKey Certificate x509_ParseCertificate
     x509_ParsePKCS1PrivateKey pem_Decode).
Local Abbreviation create :=
  (createCA PrivateKey PublicKey Certificate rsa_GenerateKey key_PublicKey
     rand_Int time_AddDate x509_CreateCertificate x509_ParseCertificate
     x509_MarshalPKCS1PrivateKey pem_EncodeToMemory).
Local Abbreviation loadOrCreate :=
  (LoadOrCreateCA PrivateKey PublicKey Certificate rsa_GenerateKey key_PublicKey
     rand_Int time_AddDate x509_CreateCertificate x509_ParseCertificate
     x509_MarshalPKCS1PrivateKey x509_ParsePKCS1PrivateKey
     pem_EncodeToMemory pem_Decode filepath_Join).

Lemma loadCA_ok fs certPath keyPath ca :
  load fs certPath keyPath = Ok ca →
  fs !! certPath = Some (CertPEM ca) ∧ fs !! keyPath = Some (KeyPEM ca).
Proof.
  unfold loadCA. intros H.
  destruct (fs !! certPath) as [certPEM|]; [|discriminate].
  destruct (fs !! keyPath) as [keyPEM|]; [|discriminate].
  destruct (pem_Decode certPEM) as [certBlock|]; [|discriminate].
  destruct (x509_ParseCertificate certBlock) as [cert|]; [|discriminate].
  destruct (pem_Decode keyPEM) as [keyBlock|]; [|discriminate].
  destruct (x509_ParsePKCS1PrivateKey keyBlock) as [key|]; [|discriminate].
  by injection H as <-.
Qed.

(** What [createCA] leaves behind when it succeeds. *)
Lemma createCA_ok fs certPath keyPath env ca fs' :
  create fs certPath keyPath env = (Ok ca, fs') →
  ∃ certDER,
    x509_ParseCertificate certDER = Some (Cert ca)
    ∧ CertPEM ca = pem_EncodeToMemory "CERTIFICATE" certDER
    ∧ KeyPEM ca
      = pem_EncodeToMemory "RSA PRIVATE KEY" (x509_MarshalPKCS1PrivateKey (Key ca))
    ∧ fs' = <[keyPath := KeyPEM ca]> (<[certPath := CertPEM ca]> fs).
Proof.
  unfold createCA. intros H.
  destruct (rsa_GenerateKey _ _) as [key|]; [|discriminate].
  destruct (rand_Int _ _) as [serialNumber|]; [|discriminate].
  destruct (x509_CreateCertificate _ _ _ _ _) as [certDER|]; [|discriminate].
  destruct (x509_ParseCertificate certDER) as [cert|] eqn:Hcert; [|discriminate].
  destruct (negb (ca_write_cert_ok env)); [discriminate|].
  destruct (negb (ca_write_key_ok env)); [discriminate|].
  injection H as <- <-. by exists certDER.
Qed.

Hypothesis pem_cert_roundtrip :
  ∀ der, pem_Decode (pem_EncodeToMemory "CERTIFICATE" der) = Some der.
Hypothesis pem_key_roundtrip :
  ∀ der, pem_Decode (pem_EncodeToMemory "RSA PRIVATE KEY" der) = Some der.
Hypothesis pkcs1_roundtrip :
  ∀ key, x509_ParsePKCS1PrivateKey (x509_MarshalPKCS1PrivateKey key) = Some key.

(** The artifacts that [createCA] has written load back to what it
    returned. *)
Lemma createCA_then_loadCA fs certPath keyPath env ca fs' :
  certPath ≠ keyPath →
  create fs certPath keyPath env = (Ok ca, fs') →
  load fs' certPath keyPath = Ok ca.
Proof.
  intros Hpaths H.
  apply createCA_ok in H as (certDER & Hparse & Hcp & Hkp & ->).
  unfold loadCA. rewrite lookup_insert_ne, !lookup_insert_eq by done.
  rewrite Hcp at 1. rewrite pem_cert_roundtrip, Hparse.
  rewrite Hkp at 1. rewrite pem_key_roundtrip, pkcs1_roundtrip.
  by destruct ca.
Qed.

(** C9: [LoadOrCreateCA] is idempotent.  Provided PEM decoding undoes PEM
    encoding, PKCS #1 parsing undoes PKCS #1 marshalling and the two
    artifacts have different paths, a call that succeeds leaves a storage
    on which every later call succeeds too, changes nothing, reads back
    the two artifacts persisted there, and returns the same certificate
    and key, with the same bytes in [CertPEM] and [KeyPEM]. *)
Theorem LoadOrCreateCA_idempotent
    (logsDir : string) (fs fs' : gmap string (list byte)) (env env' : CAEnv)
    (ca : CAConfig PrivateKey Certificate) :
  filepath_Join logsDir "ca.crt" ≠ filepath_Join logsDir "ca.key" →
  loadOrCreate fs logsDir env = (Ok ca, fs') →
  ∃ ca', loadOrCreate fs' logsDir env' = (Ok ca', fs')
    ∧ CertPEM ca' = CertPEM ca ∧ KeyPEM ca' = KeyPEM ca
    ∧ ca' = ca
    ∧ fs' !! filepath_Join logsDir "ca.crt" = Some (CertPEM ca)
    ∧ fs' !! filepath_Join logsDir "ca.key" = Some (KeyPEM ca).
Proof.
  intros Hpaths H. exists ca. unfold LoadOrCreateCA in *.
  set (certPath := filepath_Join logsDir "ca.crt") in *.
  set (keyPath := filepath_Join logsDir "ca.key") in *.
  assert (load fs' certPath keyPath = Ok ca) as Hload.
  { destruct (fs !! certPath) as [c|] eqn:Hfc;
      [destruct (fs !! keyPath) as [k|] eqn:Hfk|];
      [by injection H as Hl <- | by eapply createCA_then_loadCA..]. }
  destruct (loadCA_ok _ _ _ _ Hload) as [Hc Hk].
  by rewrite Hc, Hk, Hload.
Qed.

End CAFacts.

Lemma LoadOrCreateCA_idempotent_witness :
  ∃ ca fs',
    LoadOrCreateCA (list byte) (list byte) (list byte) raw_GenerateKey id raw_Int
      raw_AddDate raw_CreateCertificate raw_Parse raw_Marshal raw_Parse
      raw_pem_Encode raw_pem_Decode join_plain ∅ "/logs" caEnv0 = (Ok ca, fs')
    ∧ LoadOrCreateCA (list byte) (list byte) (list byte) raw_GenerateKey id raw_Int
        raw_AddDate raw_CreateCertificate raw_Parse raw_Marshal raw_Parse
        raw_pem_Encode raw_pem_Decode join_plain fs' "/logs" caEnv0 = (Ok ca, fs').
Proof.
  eexists _, _. split; [reflexivity|].
  destruct (LoadOrCreateCA_idempotent raw_GenerateKey id raw_Int
              raw_AddDate raw_CreateCertificate raw_Parse raw_Marshal raw_Parse
              raw_pem_Encode raw_pem_Decode join_plain
              (λ der, eq_refl) (λ der, eq_refl) (λ key, eq_refl)
              "/logs" ∅ _ caEnv0 caEnv0 _ ltac:(discriminate) eq_refl)
    as (ca' & H & _ & _ & -> & _).
  exact H.
Defined.

(** * Further properties of the code *)

(** ** [splitLines] *)

Lemma lines_of_join_app (ls : list (list byte)) (rest : list byte) :
  Forall newline_free ls →
  lines_of [] (join_lines ls ++ rest) = ls ++ lines_of [] rest.
Proof.
  unfold join_lines. induction 1 as [|line ls Hline _ IH]; simpl; [done|].
  rewrite <- !app_assoc. simpl. by rewrite lines_of_line, IH.
Qed.

(** [splitLines] undoes the joining of lines: a file made of lines without
    newline, each closed by a newline, splits into these lines, and a last
    line that is not empty and not closed comes out as one more line. *)
Theorem splitLines_join (ls : list (list byte)) (tail : list byte) :
  Forall newline_free ls → newline_free tail →
  splitLines (join_lines ls) = ls
  ∧ (tail ≠ [] → splitLines (join_lines ls ++ tail) = ls ++ [tail]).
Proof.
  intros Hls Htail. rewrite !splitLines_lines_of. split.
  - rewrite <- (app_nil_r (join_lines ls)), lines_of_join_app by done.
    simpl. by rewrite app_nil_r.
  - intros Hne. rewrite lines_of_join_app by done.
    by rewrite (lines_of_last [] tail).
Qed.

Lemma splitLines_join_witness :
  splitLines (join_lines [[x61; x62]; []; [x63]]) = [[x61; x62]; []; [x63]].
Proof.
  refine (proj1 (splitLines_join [[x61; x62]; []; [x63]] [] _ _)).
  - repeat constructor.
  - constructor.
Defined.

Lemma lines_of_newline_free (cur rest : list byte) :
  newline_free cur → Forall newline_free (lines_of cur rest).
Proof.
  revert cur. induction rest as [|b rest IH]; intros cur Hcur; simpl.
  - destruct cur; [constructor|]. constructor; [done|constructor].
  - destruct (Byte.eqb b newline) eqn:Hb.
    + constructor; [done|]. apply IH. constructor.
    + apply IH. apply Forall_app. split; [done|]. constructor; [done|constructor].
Qed.

Lemma unterminated_newline (cur rest : list byte) :
  unterminated cur (newline :: rest) = unterminated [] rest.
Proof.
  unfold unterminated. rewrite (last_cons newline).
  destruct (last rest); [done|]. by destruct rest.
Qed.

Lemma unterminated_byte (cur rest : list byte) (b : byte) :
  Byte.eqb b newline = false →
  unterminated cur (b :: rest) = unterminated (cur ++ [b]) rest.
Proof.
  intros Hb. unfold unterminated. rewrite (last_cons b).
  destruct (last rest); [done|]. rewrite Hb. by destruct cur.
Qed.

Lemma lines_of_rejoin (cur rest : list byte) :
  join_lines (lines_of cur rest)
    = cur ++ rest ++ (if unterminated cur rest then [newline] else []).
Proof.
  unfold join_lines. revert cur. induction rest as [|b rest IH]; intros cur.
  - unfold unterminated. simpl. destruct cur; simpl; [done|].
    by rewrite app_nil_r.
  - simpl lines_of. destruct (Byte.eqb b newline) eqn:Hb.
    + apply Byte.byte_dec_bl in Hb. subst b. simpl. rewrite IH, <- app_assoc.
      simpl. by rewrite unterminated_newline.
    + rewrite IH, <- !app_assoc. simpl. by rewrite (unterminated_byte cur rest b).
Qed.

(** No line that [splitLines] returns holds a newline, and the lines, each
    closed by a newline again, give the file back: as it is when it is empty
    or ends in a newline, with one newline added otherwise. *)
Theorem splitLines_rejoin (data : list byte) :
  Forall newline_free (splitLines data)
  ∧ join_lines (splitLines data)
    = data ++ (if unterminated [] data then [newline] else []).
Proof.
  rewrite splitLines_lines_of. split.
  - apply lines_of_newline_free. constructor.
  - by rewrite lines_of_rejoin.
Qed.

(** ** [NewLogger] and [loadExistingLogs] *)

Lemma mixed_lines_newline_free : Forall newline_free mixed_lines.
Proof. repeat constructor. Qed.

Lemma restore_keeps_every_parseable_line_witness :
  ∃ l, NewLogger line_Unmarshal "/logs" true (FileData (join_lines mixed_lines))
         = Some l
    ∧ requests l = [emptyLog "x"; emptyLog "y"].
Proof.
  eexists. split; [reflexivity|].
  exact (proj1 (restore_keeps_every_parseable_line line_Unmarshal "/logs"
                  mixed_lines _ mixed_lines_newline_free eq_refl)).
Defined.

(** A logger that has just been created has an empty lookup, whatever the
    log file held: a completion changes nothing then, for any id, the ids
    of the restored records included. *)
Theorem restored_records_cannot_be_completed
    (json_Marshal : RequestLog → option (list byte))
    (json_Unmarshal : list byte → option RequestLog)
    (dir : string) (rd : ReadFileResult) (l : Logger)
    (id : string) (resp : option Response) (ok : bool) :
  NewLogger json_Unmarshal dir true rd = Some l →
  requestIdx l = ∅ ∧ logFile l = []
  ∧ LogResponse json_Marshal l id resp ok = Some l.
Proof.
  intros Hnew.
  pose proof (NewLogger_requestIdx json_Unmarshal dir rd l Hnew) as Hidx.
  split; [done|]. split.
  - injection Hnew as <-. by destruct rd.
  - apply LogResponse_absent. by rewrite Hidx, lookup_empty.
Qed.

Lemma restored_records_cannot_be_completed_witness :
  ∃ l, NewLogger line_Unmarshal "/logs" true (FileData (join_lines mixed_lines))
         = Some l
    ∧ ID <$> requests l !! 0 = Some "x"
    ∧ LogResponse line_Marshal l "x" (Some ok200) true = Some l.
Proof.
  eexists. split; [reflexivity|]. split; [reflexivity|].
  exact (proj2 (proj2 (restored_records_cannot_be_completed line_Marshal
                         line_Unmarshal "/logs" _ _ "x" (Some ok200) true eq_refl))).
Defined.

(** ** A request and its response through the proxy hooks *)

Lemma lastn_snoc {A} (n : nat) (l : list A) (x : A) :
  lastn (S n) (l ++ [x]) = lastn n l ++ [x].
Proof.
  unfold lastn. rewrite length_app. simpl.
  replace (length l + 1 - S n) with (length l - n) by lia.
  apply drop_app_le. lia.
Qed.

Section Exchange.

Variable json_Marshal : RequestLog → option (list byte).
Variable time_Format : Time → string.

Local Abbreviation record := (LogRequest json_Marshal time_Format).
Local Abbreviation entry_of := (newEntry time_Format).

(** After a request has been recorded, its record is the last of the
    working set and the lookup sends its id there, evicting or not, and
    whatever the lookup held before. *)
Lemma LogRequest_lookup_new l req env data :
  json_Marshal (entry_of req env) = Some data →
  requests (fst (record l req env)) = lastn 999 (requests l) ++ [entry_of req env]
  ∧ requestIdx (fst (record l req env)) !! ID (entry_of req env)
    = Some (length (lastn 999 (requests l))).
Proof.
  intros Hm.
  assert (requests (fst (record l req env))
          = lastn 999 (requests l) ++ [entry_of req env]) as Hrs.
  { rewrite (LogRequest_requests _ _ _ _ _ data Hm). apply (lastn_snoc 999). }
  split; [done|]. revert Hrs. unfold LogRequest. rewrite Hm.
  destruct (_ <? _) eqn:Hlt; simpl; intros Hrs.
  - rewrite Hrs. apply rebuildIdx_last_position, last_position_snoc_eq. done.
  - apply Nat.ltb_ge in Hlt. rewrite length_app in Hlt. simpl in Hlt.
    rewrite lookup_insert_eq. f_equal. rewrite length_lastn, length_app.
    change (length [entry_of req env]) with 1.
    unfold workingSetLimit in Hlt. lia.
Qed.

(** The two hooks that [main] registers, one after the other: when the entry
    can be rendered, the response completes exactly the record of that
    request.  The snapshot is then the up to 999 most recent earlier records,
    untouched, followed by the entry with the status, first header values
    and capped body of the response; the lookup is the one left by the
    request hook. *)
Theorem exchange_completes_its_record
    (l : Logger) (req : Request) (env : Env) (resp : Response) (ok : bool)
    (data : list byte) :
  json_Marshal (entry_of req env) = Some data →
  ∃ l', exchange json_Marshal time_Format l req env (Some resp) ok = Some l'
    ∧ GetRequests l'
      = lastn 999 (requests l)
        ++ [setResponse (entry_of req env) (resp_StatusCode resp)
              (firstValues (resp_Header resp)) (responseBody resp)]
    ∧ requestIdx l' = requestIdx (fst (record l req env)).
Proof.
  intros Hm. unfold exchange, onRequest, onResponse.
  destruct (record l req env) as [l1 e] eqn:Hrec.
  assert (e = entry_of req env) as ->.
  { by rewrite <- (LogRequest_entry json_Marshal time_Format l req env), Hrec. }
  destruct (LogRequest_lookup_new l req env data Hm) as [Hrs Hidx].
  rewrite Hrec in Hrs, Hidx. change (fst (l1, entry_of req env)) with l1 in *.
  assert (requests l1 !! length (lastn 999 (requests l)) = Some (entry_of req env))
    as Hr by (by rewrite Hrs, lookup_app_r, Nat.sub_diag).
  rewrite (LogResponse_found json_Marshal l1 _ resp ok _ _ Hidx Hr).
  eexists. split; [done|]. unfold GetRequests. cbn [requests requestIdx].
  split; [|done]. rewrite Hrs. by rewrite insert_app_r_alt, Nat.sub_diag.
Qed.

End Exchange.

Lemma exchange_completes_its_record_witness :
  ∃ l', exchange line_Marshal line_Format emptyLogger getA env0 (Some ok200) true
          = Some l'
    ∧ ResponseStatus <$> GetRequests l' !! 0 = Some 200%Z.
Proof.
  destruct (exchange_completes_its_record line_Marshal line_Format emptyLogger
              getA env0 ok200 true _ eq_refl) as (l' & He & Hrs & _).
  exists l'. split; [exact He|]. by rewrite Hrs.
Defined.

(** ** What a completion leaves alone *)

Section CompletionFacts.

Variable json_Marshal : RequestLog → option (list byte).
Variable json_Unmarshal : list byte → option RequestLog.
Variable time_Format : Time → string.

Local Abbreviation complete := (LogResponse json_Marshal).
Local Abbreviation reachable_logger :=
  (reachable json_Marshal time_Format json_Unmarshal).

Lemma same_request_refl r : same_request r r.
Proof. by repeat split. Qed.

Lemma same_request_setResponse r status headers body :
  same_request r (setResponse r status headers body).
Proof. by repeat split. Qed.

Lemma file_Write_prefix f data ok : f `prefix_of` file_Write f data ok.
Proof.
  unfold file_Write. destruct ok; [by apply prefix_app_r|done].
Qed.

Lemma LogResponse_frame l id resp ok l' :
  complete l id resp ok = Some l' →
  requestIdx l' = requestIdx l
  ∧ logsDir l' = logsDir l
  ∧ length (requests l') = length (requests l)
  ∧ (∀ i r', requests l' !! i = Some r' →
       ∃ r, requests l !! i = Some r ∧ same_request r r')
  ∧ logFile l `prefix_of` logFile l'.
Proof.
  unfold LogResponse. intros H.
  assert (∀ i r', requests l !! i = Some r' →
            ∃ r, requests l !! i = Some r ∧ same_request r r') as Hsame.
  { intros i r' Hr. exists r'. split; [done|]. apply same_request_refl. }
  destruct resp as [resp|]; [|by injection H as <-].
  destruct (requestIdx l !! id) as [idx|]; [|by injection H as <-].
  destruct (requests l !! idx) as [r|] eqn:Hr; [|discriminate].
  assert (∀ i r', <[idx := setResponse r (resp_StatusCode resp)
                       (firstValues (resp_Header resp)) (responseBody resp)]>
                    (requests l) !! i = Some r' →
            ∃ r0, requests l !! i = Some r0 ∧ same_request r0 r') as Hins.
  { intros i r' Hi. destruct (decide (idx = i)) as [->|Hne].
    - rewrite list_lookup_insert_eq in Hi by by eapply lookup_lt_Some.
      injection Hi as <-. exists r. split; [done|]. apply same_request_setResponse.
    - rewrite list_lookup_insert_ne in Hi by done. by apply Hsame. }
  destruct (json_Marshal _); injection H as <-; simpl;
    rewrite length_insert; repeat split; try done.
  apply file_Write_prefix.
Qed.

(** On a logger that the program can reach, a completion never fails on
    its index, never changes the lookup, the number or the order of the
    records or a field that [LogRequest] has filled (the redacted headers
    stay redacted), and never alters the bytes already in the durable
    file. *)
Theorem LogResponse_keeps_requests
    (l : Logger) (id : string) (resp : option Response) (ok : bool) :
  reachable_logger l →
  ∃ l', complete l id resp ok = Some l'
    ∧ requestIdx l' = requestIdx l
    ∧ length (requests l') = length (requests l)
    ∧ (∀ i r', requests l' !! i = Some r' →
         ∃ r, requests l !! i = Some r ∧ same_request r r')
    ∧ logFile l `prefix_of` logFile l'.
Proof.
  intros Hreach.
  destruct (LogResponse_no_panic json_Marshal l id resp ok
              (reachable_idx_sound _ _ _ l Hreach)) as [l' Hl'].
  exists l'. split; [done|].
  by destruct (LogResponse_frame l id resp ok l' Hl') as (? & _ & ? & ? & ?).
Qed.

(** Completions of two different ids commute on the working set: whichever
    response arrives first, the records and the lookup end up the same
    (only the order of the two durable lines differs). *)
Theorem completions_commute
    (l : Logger) (id1 id2 : string) (resp1 resp2 : Response) (ok1 ok2 : bool) :
  reachable_logger l → id1 ≠ id2 →
  ∃ la lb,
    complete l id1 (Some resp1) ok1 ≫= (λ l1, complete l1 id2 (Some resp2) ok2)
      = Some la
    ∧ complete l id2 (Some resp2) ok2 ≫= (λ l2, complete l2 id1 (Some resp1) ok1)
      = Some lb
    ∧ requests la = requests lb
    ∧ requestIdx la = requestIdx lb.
Proof.
  intros Hreach Hne.
  pose proof (reachable_idx_sound _ _ _ l Hreach) as Hs.
  destruct (LogResponse_no_panic json_Marshal l id1 (Some resp1) ok1 Hs) as [l1 H1].
  destruct (LogResponse_no_panic json_Marshal l id2 (Some resp2) ok2 Hs) as [l2 H2].
  pose proof (LogResponse_idx_sound json_Marshal l _ _ _ l1 Hs H1) as Hs1.
  pose proof (LogResponse_idx_sound json_Marshal l _ _ _ l2 Hs H2) as Hs2.
  destruct (LogResponse_no_panic json_Marshal l1 id2 (Some resp2) ok2 Hs1) as [la Ha].
  destruct (LogResponse_no_panic json_Marshal l2 id1 (Some resp1) ok1 Hs2) as [lb Hb].
  exists la, lb. rewrite H1, H2. simpl. split; [done|]. split; [done|].
  destruct (LogResponse_frame _ _ _ _ _ H1) as (Hi1 & _).
  destruct (LogResponse_frame _ _ _ _ _ H2) as (Hi2 & _).
  destruct (LogResponse_frame _ _ _ _ _ Ha) as (Hia & _).
  destruct (LogResponse_frame _ _ _ _ _ Hb) as (Hib & _).
  split; [|congruence].
  destruct (requestIdx l !! id1) as [i1|] eqn:E1;
    destruct (requestIdx l !! id2) as [i2|] eqn:E2.
  - destruct (Hs id1 i1 E1) as (r1 & Hr1 & Hid1).
    destruct (Hs id2 i2 E2) as (r2 & Hr2 & Hid2).
    assert (i1 ≠ i2) as Hi by (intros ->; congruence).
    rewrite (LogResponse_found json_Marshal l id1 resp1 ok1 i1 r1 E1 Hr1) in H1.
    rewrite (LogResponse_found json_Marshal l id2 resp2 ok2 i2 r2 E2 Hr2) in H2.
    injection H1 as <-. injection H2 as <-.
    rewrite (LogResponse_found json_Marshal _ id2 resp2 ok2 i2 r2) in Ha;
      [|done|by simpl; rewrite list_lookup_insert_ne].
    rewrite (LogResponse_found json_Marshal _ id1 resp1 ok1 i1 r1) in Hb;
      [|done|by simpl; rewrite list_lookup_insert_ne].
    injection Ha as <-. injection Hb as <-. simpl.
    by apply list_insert_insert_ne.
  - rewrite LogResponse_absent in H2 by done. injection H2 as <-.
    rewrite LogResponse_absent in Ha by congruence. injection Ha as <-.
    congruence.
  - rewrite LogResponse_absent in H1 by done. injection H1 as <-.
    rewrite LogResponse_absent in Hb by congruence. injection Hb as <-.
    congruence.
  - rewrite LogResponse_absent in Ha by congruence. injection Ha as <-.
    rewrite LogResponse_absent in Hb by congruence. injection Hb as <-.
    rewrite LogResponse_absent in H1 by done. injection H1 as <-.
    rewrite LogResponse_absent in H2 by done. by injection H2 as <-.
Qed.

End CompletionFacts.

Lemma LogResponse_keeps_requests_witness :
  ∃ l', LogResponse line_Marshal loggerA idA (Some ok200) true = Some l'
    ∧ length (requests l') = length (requests loggerA).
Proof.
  destruct (LogResponse_keeps_requests line_Marshal line_Unmarshal line_Format
              loggerA idA (Some ok200) true reachable_loggerA)
    as (l' & H & _ & Hlen & _).
  by exists l'.
Defined.

Lemma completions_commute_witness :
  ∃ la lb,
    LogResponse line_Marshal loggerA idA (Some ok200) true
      ≫= (λ l1, LogResponse line_Marshal l1 "deadbeef" (Some err500) true) = Some la
    ∧ LogResponse line_Marshal loggerA "deadbeef" (Some err500) true
      ≫= (λ l2, LogResponse line_Marshal l2 idA (Some ok200) true) = Some lb
    ∧ requests la = requests lb.
Proof.
  destruct (completions_commute line_Marshal line_Unmarshal line_Format
              loggerA idA "deadbeef" ok200 err500 true true reachable_loggerA)
    as (la & lb & Ha & Hb & Hrs & _); [discriminate|].
  by exists la, lb.
Defined.

(** ** The durable file of a run, and its restore *)

Section DurableFile.

Variable json_Marshal : RequestLog → option (list byte).
Variable json_Unmarshal : list byte → option RequestLog.
Variable time_Format : Time → string.

Local Abbreviation run := (record_all json_Marshal time_Format).
Local Abbreviation entries := (entries_of time_Format).
Local Abbreviation line_of := (rendering json_Marshal).

Lemma join_lines_cons line ls : join_lines (line :: ls) = line ++ newline :: join_lines ls.
Proof. unfold join_lines. simpl. by rewrite <- app_assoc. Qed.

Lemma record_all_logFile l calls :
  Forall (written_as_line json_Marshal time_Format) calls →
  logFile (run l calls) = logFile l ++ join_lines (map line_of (entries calls)).
Proof.
  intros H. revert l. induction H as [|[req env] calls Hc _ IH]; intros l.
  - simpl. by rewrite app_nil_r.
  - destruct Hc as (Hok & data & Hm & _). simpl in Hok, Hm.
    change (run l ((req, env) :: calls))
      with (run (fst (LogRequest json_Marshal time_Format l req env)) calls).
    rewrite IH, (LogRequest_logFile _ _ _ _ _ data Hm), Hok.
    change (entries ((req, env) :: calls))
      with (newEntry time_Format req env :: entries calls).
    simpl map. rewrite join_lines_cons. unfold rendering at 2. rewrite Hm.
    unfold file_Write. simpl. by rewrite <- !app_assoc.
Qed.

Lemma renderings_newline_free calls :
  Forall (written_as_line json_Marshal time_Format) calls →
  Forall newline_free (map line_of (entries calls))
  ∧ omap (parse_line json_Unmarshal) (map line_of (entries calls))
    = omap (λ e, json_Unmarshal (line_of e)) (entries calls).
Proof.
  induction 1 as [|[req env] calls Hc _ [IH1 IH2]]; [done|].
  destruct Hc as (_ & data & Hm & Hne & Hnl). simpl in Hm.
  change (entries ((req, env) :: calls))
    with (newEntry time_Format req env :: entries calls).
  simpl map. split.
  - constructor; [|done]. unfold rendering. by rewrite Hm.
  - assert (parse_line json_Unmarshal (line_of (newEntry time_Format req env))
            = json_Unmarshal (line_of (newEntry time_Format req env))) as Hp.
    { unfold parse_line, rendering. rewrite Hm. simpl. by destruct data. }
    simpl. rewrite Hp.
    change (list_omap _ _ ?f ?l) with (omap f l). by rewrite IH2.
Qed.

(** The durable file after a run of [LogRequest] calls, and what a restart
    makes of it.  When every entry is rendered as a non-empty line without
    newline and every write succeeds, the run appends exactly these lines,
    in order, to what the file held; and a logger created on the file of a
    run from an empty file restores one record per call, all of them, each
    the decoding of its line (a line that does not decode is skipped). *)
Theorem restore_after_records (dir : string) (l : Logger)
    (calls : list (Request * Env)) :
  Forall (written_as_line json_Marshal time_Format) calls →
  logFile (run l calls) = logFile l ++ join_lines (map line_of (entries calls))
  ∧ ∃ l', NewLogger json_Unmarshal dir true
            (FileData (logFile (run (mkLogger dir [] [] ∅) calls))) = Some l'
      ∧ requests l' = omap (λ e, json_Unmarshal (line_of e)) (entries calls)
      ∧ requestIdx l' = ∅.
Proof.
  intros H. split; [by apply record_all_logFile|].
  destruct (renderings_newline_free calls H) as [Hnl Homap].
  eexists. split; [done|].
  rewrite record_all_logFile by done. simpl.
  rewrite load_lines_omap, splitLines_lines_of.
  change (lines_of [] (join_lines (map line_of (entries calls))))
    with (lines_of []
            (concat (map (λ line, line ++ [newline]) (map line_of (entries calls))))).
  by rewrite lines_of_concat, Homap.
Qed.

End DurableFile.

Lemma getA_written_as_line :
  Forall (written_as_line line_Marshal line_Format) [(getA, env0); (getA, env_with x01)].
Proof.
  repeat constructor; eexists; (split; [reflexivity|]);
    (split; [discriminate|repeat constructor]).
Qed.

Lemma restore_after_records_witness :
  ∃ l', NewLogger line_Unmarshal "/logs" true
          (FileData (logFile (record_all line_Marshal line_Format
                                (mkLogger "/logs" [] [] ∅)
                                [(getA, env0); (getA, env_with x01)]))) = Some l'
    ∧ requests l' = [emptyLog "00000000"; emptyLog "01000000"].
Proof.
  destruct (restore_after_records line_Marshal line_Unmarshal line_Format "/logs"
              emptyLogger [(getA, env0); (getA, env_with x01)] getA_written_as_line)
    as (_ & l' & Hnew & Hrs & _).
  exists l'. split; [exact Hnew|]. rewrite Hrs. reflexivity.
Defined.

(** ** The lookup of a logger that started without records *)

Lemma rebuildIdx_complete rs r :
  r ∈ rs → is_Some (rebuildIdx rs !! ID r).
Proof.
  induction rs as [|x rs IH] using rev_ind; intros Hr.
  - by apply elem_of_nil in Hr.
  - rewrite rebuildIdx_snoc. destruct (decide (ID x = ID r)) as [->|Hne].
    + rewrite lookup_insert_eq. by eexists.
    + rewrite lookup_insert_ne by done. apply IH.
      apply elem_of_app in Hr as [Hr|Hr]; [done|].
      apply list_elem_of_singleton in Hr. by subst.
Qed.

Section LookupFacts.

Variable json_Marshal : RequestLog → option (list byte).
Variable time_Format : Time → string.

Lemma LogRequest_idx_exact l req env :
  idx_exact l → idx_exact (fst (LogRequest json_Marshal time_Format l req env)).
Proof.
  unfold idx_exact, LogRequest. intros Hl.
  destruct (json_Marshal _); [|done].
  destruct (_ <? _); simpl; [done|].
  rewrite rebuildIdx_snoc, Hl, length_app. simpl. f_equal. lia.
Qed.

Lemma LogResponse_idx_exact l id resp ok l' :
  idx_exact l → LogResponse json_Marshal l id resp ok = Some l' → idx_exact l'.
Proof.
  unfold idx_exact, LogResponse. intros Hl H.
  destruct resp as [resp|]; [|by injection H as <-].
  destruct (requestIdx l !! id) as [idx|]; [|by injection H as <-].
  destruct (requests l !! idx) as [r|] eqn:Hr; [|discriminate].
  destruct (json_Marshal _); injection H as <-; simpl;
    by rewrite (rebuildIdx_insert _ _ r).
Qed.

(** When the lookup agrees with the sequence, as it does on a logger that
    starts without records, every [LogRequest] and every [LogResponse]
    keeps it so; the lookup then knows the id of every retained record and
    sends it to the last position that holds it, so that a response for a
    retained id always reaches a record. *)
Theorem lookup_follows_sequence (l : Logger) :
  idx_exact l →
  (∀ req env, idx_exact (fst (LogRequest json_Marshal time_Format l req env)))
  ∧ (∀ calls, idx_exact (record_all json_Marshal time_Format l calls))
  ∧ (∀ id resp ok l', LogResponse json_Marshal l id resp ok = Some l' →
       idx_exact l')
  ∧ (∀ r, r ∈ requests l →
       ∃ i, requestIdx l !! ID r = Some i ∧ last_position (requests l) (ID r) i).
Proof.
  intros Hl. split; [|split; [|split]].
  - intros req env. by apply LogRequest_idx_exact.
  - intros calls. revert l Hl.
    induction calls as [|[req env] calls IH]; intros l Hl; simpl; [done|].
    by apply IH, LogRequest_idx_exact.
  - intros id resp ok l'. by apply LogResponse_idx_exact.
  - intros r Hr. destruct (rebuildIdx_complete _ _ Hr) as [i Hi].
    exists i. rewrite Hl. split; [done|]. by apply rebuildIdx_last_position.
Qed.

End LookupFacts.

Lemma lookup_follows_sequence_witness :
  idx_exact (record_all line_Marshal line_Format emptyLogger
               [(getA, env0); (getA, env_with x01)]).
Proof.
  refine (proj1 (proj2 (lookup_follows_sequence line_Marshal line_Format
                          emptyLogger _)) _).
  reflexivity.
Defined.

(** ** What [LogRequest] and [LogResponse] store *)

Section StoredFields.

Variable json_Marshal : RequestLog → option (list byte).
Variable time_Format : Time → string.

(** No stored body is longer than 10 KiB and the 15 bytes of the marker:
    neither the body of an entry, whatever the request, nor the response
    body that a completion writes into a record. *)
Theorem stored_bodies_bounded (l : Logger) :
  (∀ req env,
     String.length (Body (snd (LogRequest json_Marshal time_Format l req env)))
       ≤ 10 * 1024 + 15)
  ∧ (∀ id resp ok l' idx r',
       LogResponse json_Marshal l id (Some resp) ok = Some l' →
       requestIdx l !! id = Some idx → requests l' !! idx = Some r' →
       String.length (ResponseBody r') ≤ 10 * 1024 + 15).
Proof.
  split.
  - intros req env. rewrite LogRequest_entry. simpl. unfold requestBody.
    destruct (req_Body req) as [[b|]|]; try (simpl; lia);
      destruct (body_method _); try (simpl; lia); apply capBody_length.
  - intros id resp ok l' idx r' H Hidx Hr'.
    destruct (requests l !! idx) as [r|] eqn:Hr.
    + rewrite (LogResponse_found json_Marshal l id resp ok idx r Hidx Hr) in H.
      injection H as <-. simpl in Hr'.
      rewrite list_lookup_insert_eq in Hr' by by eapply lookup_lt_Some.
      injection Hr' as <-. simpl. unfold responseBody.
      destruct (resp_Body resp) as [[b|]|]; try (simpl; lia). apply capBody_length.
    + unfold LogResponse in H. rewrite Hidx, Hr in H. discriminate.
Qed.

(** The headers of an entry: a request header without values is left out,
    any other header is stored under the same key with its first value
    only, or with the redaction marker when the key is one of the three
    sensitive names. *)
Theorem stored_request_headers (l : Logger) (req : Request) (env : Env)
    (key : string) :
  Headers (snd (LogRequest json_Marshal time_Format l req env)) !! key
    = match req_Header req !! key with
      | Some (v0 :: _) => Some (if sensitive key then redacted else v0)
      | _ => None
      end.
Proof. rewrite LogRequest_entry. simpl. apply redactHeaders_lookup. Qed.

(** The response headers of a completed record: the first value of every
    response header that has one, under the same key, as it came; unlike the
    request headers they are not redacted, not even under the three
    sensitive names. *)
Theorem stored_response_headers (l : Logger) (id : string) (resp : Response)
    (ok : bool) (idx : nat) (r : RequestLog) :
  requestIdx l !! id = Some idx → requests l !! idx = Some r →
  ∃ l' r', LogResponse json_Marshal l id (Some resp) ok = Some l'
    ∧ requests l' !! idx = Some r'
    ∧ ResponseStatus r' = resp_StatusCode resp
    ∧ ∀ key, ResponseHeaders r' !! key = resp_Header resp !! key ≫= head.
Proof.
  intros Hidx Hr.
  rewrite (LogResponse_found json_Marshal l id resp ok idx r Hidx Hr).
  eexists _, _. split; [done|]. simpl. split.
  - apply list_lookup_insert_eq. by eapply lookup_lt_Some.
  - split; [done|]. intros key. simpl. apply firstValues_lookup.
Qed.

End StoredFields.

Lemma oneLogger_lookup : requestIdx oneLogger !! "00000000" = Some 0.
Proof. apply lookup_singleton_eq. Qed.

Lemma stored_bodies_bounded_witness :
  ∃ l' r', LogResponse line_Marshal oneLogger "00000000" (Some (okA (20 * 1024))) true
             = Some l'
    ∧ requests l' !! 0 = Some r'
    ∧ String.length (ResponseBody r') ≤ 10 * 1024 + 15.
Proof.
  pose proof (LogResponse_found line_Marshal oneLogger "00000000" (okA (20 * 1024))
                true 0 (emptyLog "00000000") oneLogger_lookup eq_refl) as H.
  cbv zeta in H. eexists _, _. split; [exact H|]. split; [reflexivity|].
  exact (proj2 (stored_bodies_bounded line_Marshal line_Format oneLogger)
           "00000000" (okA (20 * 1024)) true _ 0 _ H oneLogger_lookup eq_refl).
Defined.

Lemma stored_response_headers_witness :
  ∃ l' r', LogResponse line_Marshal oneLogger "00000000" (Some authResponse) true
             = Some l'
    ∧ requests l' !! 0 = Some r'
    ∧ ResponseHeaders r' !! "Authorization" = Some bearer.
Proof.
  destruct (stored_response_headers line_Marshal oneLogger "00000000" authResponse
              true 0 (emptyLog "00000000") oneLogger_lookup eq_refl)
    as (l' & r' & H & Hr & _ & Hh).
  exists l', r'. split; [exact H|]. split; [exact Hr|].
  rewrite Hh. unfold authResponse. simpl. by rewrite lookup_singleton_eq.
Defined.

(** ** The listing handlers *)

Lemma reverse_loop_rev rest n i reversed :
  length reversed = n → i + length rest = n →
  reverse_loop rest n i reversed = rev rest ++ drop (length rest) reversed.
Proof.
  revert i reversed. induction rest as [|req rest IH]; intros i reversed Hn Hi.
  - simpl. by rewrite drop_0.
  - simpl in Hi. simpl reverse_loop.
    rewrite (IH (S i)) by (rewrite ?length_insert; lia).
    replace (n - 1 - i) with (length rest) by lia.
    rewrite drop_insert_ge, Nat.sub_diag by lia.
    destruct (drop (length rest) reversed) as [|x tl] eqn:Hd.
    { apply (f_equal length) in Hd. rewrite length_drop in Hd. simpl in Hd. lia. }
    simpl. rewrite <- app_assoc. simpl. do 2 f_equal.
    change (S (length rest)) with (1 + length rest).
    rewrite Nat.add_comm, <- drop_drop, Hd. done.
Qed.

Lemma reverseRequests_rev requests : reverseRequests requests = rev requests.
Proof.
  unfold reverseRequests.
  rewrite reverse_loop_rev by (rewrite ?length_replicate; lia).
  rewrite drop_ge by (rewrite length_replicate; lia). by rewrite app_nil_r.
Qed.

(** [handleRequests] answers with the snapshot in reverse, newest first,
    nothing added and nothing lost; right after a request has been
    recorded, the entry of that request comes first. *)
Theorem handleRequests_newest_first
    (json_EncodeLogs : list RequestLog → list byte + string) (l : Logger) :
  handleRequests json_EncodeLogs l
    = match json_EncodeLogs (rev (GetRequests l)) with
      | inl body => Encoded body
      | inr msg => InternalError msg
      end
  ∧ (∀ i, reverseRequests (GetRequests l) !! i
          = if decide (i < length (GetRequests l))
            then GetRequests l !! (length (GetRequests l) - S i) else None)
  ∧ (∀ json_Marshal time_Format req env data,
       json_Marshal (newEntry time_Format req env) = Some data →
       head (reverseRequests
               (GetRequests (fst (LogRequest json_Marshal time_Format l req env))))
         = Some (newEntry time_Format req env)).
Proof.
  split; [|split].
  - unfold handleRequests. by rewrite reverseRequests_rev.
  - intros i. rewrite reverseRequests_rev. case_decide as Hi.
    + rewrite rev_alt. by apply (reverse_lookup (GetRequests l)).
    + apply lookup_ge_None. rewrite length_rev. lia.
  - intros json_Marshal time_Format req env data Hm.
    rewrite reverseRequests_rev. unfold GetRequests.
    destruct (LogRequest_lookup_new json_Marshal time_Format l req env data Hm)
      as [-> _].
    by rewrite rev_app_distr.
Qed.

Lemma handleRequests_newest_first_witness :
  head (reverseRequests
          (GetRequests (fst (LogRequest line_Marshal line_Format loggerA getA
                               (env_with x01)))))
    = Some (newEntry line_Format getA (env_with x01)).
Proof.
  exact (proj2 (proj2 (handleRequests_newest_first (λ _, inr "") loggerA))
           line_Marshal line_Format getA (env_with x01) _ eq_refl).
Defined.

Lemma pcap_loop_filter files pcapFiles :
  pcap_loop files pcapFiles
    = pcapFiles ++ List.filter (λ name, HasSuffix name ".pcap") files.
Proof.
  revert pcapFiles. induction files as [|name files IH]; intros pcapFiles; simpl.
  - by rewrite app_nil_r.
  - destruct (HasSuffix name ".pcap"); rewrite IH; [|done].
    by rewrite <- app_assoc.
Qed.

(** A name without separator that ends in [.pcap] passes the checks of the
    download handler unchanged: the storage is asked about that very name in
    the log directory. *)
Lemma handlePcapDownload_plain filepath_Join os_Stat logsDir name :
  has_separator name = false → HasSuffix name ".pcap" = true →
  handlePcapDownload filepath_Join os_Stat logsDir ("/api/pcap/" +:+ name)
    = match os_Stat (filepath_Join logsDir name) with
      | StatNotExist => (NotFound "PCAP file not found", [filepath_Join logsDir name])
      | _ => (ServeFile (filepath_Join logsDir name) name, [filepath_Join logsDir name])
      end.
Proof.
  intros Hsep Hsuf.
  assert (name ≠ "") as Hne by (intros ->; discriminate Hsuf).
  unfold handlePcapDownload. rewrite TrimPrefix_api.
  assert (String.eqb name "" = false) as -> by (by apply String.eqb_neq).
  rewrite (Base_plain name Hne Hsep), Hsuf. simpl.
  by destruct (os_Stat _).
Qed.

(** [handlePcapList] lists exactly the directory entries whose name ends in
    [.pcap], in the order of the directory, and answers with the error of
    [os.ReadDir] when the directory cannot be read; every name it lists is
    one that [handlePcapDownload] accepts and looks up under that same name
    in the log directory. *)
Theorem handlePcapList_lists_captures
    (json_EncodeNames : list string → list byte + string)
    (os_ReadDir : string → list string + string)
    (filepath_Join : string → string → string) (os_Stat : string → StatResult)
    (logsDir : string) :
  (∀ msg, os_ReadDir logsDir = inr msg →
     handlePcapList json_EncodeNames os_ReadDir logsDir = InternalError msg)
  ∧ (∀ files, os_ReadDir logsDir = inl files →
       Forall (λ name, has_separator name = false) files →
       handlePcapList json_EncodeNames os_ReadDir logsDir
         = match json_EncodeNames (pcap_loop files []) with
           | inl body => Encoded body
           | inr msg => InternalError msg
           end
       ∧ pcap_loop files [] = List.filter (λ name, HasSuffix name ".pcap") files
       ∧ ∀ name, In name (pcap_loop files []) →
           In name files ∧ HasSuffix name ".pcap" = true
           ∧ handlePcapDownload filepath_Join os_Stat logsDir ("/api/pcap/" +:+ name)
             = match os_Stat (filepath_Join logsDir name) with
               | StatNotExist =>
                   (NotFound "PCAP file not found", [filepath_Join logsDir name])
               | _ =>
                   (ServeFile (filepath_Join logsDir name) name,
                    [filepath_Join logsDir name])
               end).
Proof.
  split.
  - intros msg Hrd. unfold handlePcapList. by rewrite Hrd.
  - intros files Hrd Hsep. unfold handlePcapList. rewrite Hrd.
    split; [done|]. rewrite pcap_loop_filter. simpl. split; [done|].
    intros name Hin. apply filter_In in Hin as [Hin Hsuf].
    split; [done|]. split; [done|].
    apply handlePcapDownload_plain; [|done].
    rewrite Forall_forall in Hsep. apply Hsep. by apply list_elem_of_In.
Qed.

Lemma handlePcapList_lists_captures_witness :
  pcap_loop sample_dir [] = ["capture_20240101_000000.pcap"]
  ∧ fst (handlePcapDownload join_plain no_files "/logs"
           ("/api/pcap/" +:+ "capture_20240101_000000.pcap"))
    = NotFound "PCAP file not found".
Proof.
  destruct (proj2 (handlePcapList_lists_captures (λ _, inr "") (λ _, inl sample_dir)
                     join_plain no_files "/logs") sample_dir eq_refl)
    as (_ & Hf & Hd).
  - repeat constructor.
  - split; [by rewrite Hf|].
    destruct (Hd "capture_20240101_000000.pcap") as (_ & _ & ->); [|done].
    rewrite Hf. simpl. by left.
Defined.

(** ** The capture-file name of an entry *)

Lemma append_String c s t : String c s +:+ t = String c (s +:+ t).
Proof. reflexivity. Qed.

Lemma substring_app_r (s t : string) :
  String.substring (String.length s) (String.length t) (s +:+ t) = t.
Proof.
  induction s as [|c s IH].
  - change ("" +:+ t) with t. apply substring_all.
  - rewrite append_String. simpl. apply IH.
Qed.

Lemma HasSuffix_app (s t : string) : HasSuffix (s +:+ t) t = true.
Proof.
  unfold HasSuffix. rewrite string_app_length.
  replace (String.length s + String.length t - String.length t)
    with (String.length s) by lia.
  rewrite substring_app_r, String.eqb_refl, andb_true_r.
  apply Nat.leb_le. lia.
Qed.

Lemma has_separator_app (s t : string) :
  has_separator (s +:+ t) = has_separator s || has_separator t.
Proof.
  unfold has_separator. induction s as [|c s IH].
  - done.
  - rewrite append_String. simpl. by rewrite IH, orb_assoc.
Qed.

(** The capture-file name that [LogRequest] puts in an entry is one that
    [handlePcapDownload] accepts as it is: when the formatted time holds no
    path separator, asking for that name is never answered with a bad
    request, and the storage is asked about that very name in the log
    directory. *)
Theorem entry_capture_file_accepted
    (json_Marshal : RequestLog → option (list byte)) (time_Format : Time → string)
    (filepath_Join : string → string → string) (os_Stat : string → StatResult)
    (logsDir : string) (l : Logger) (req : Request) (env : Env) :
  has_separator (time_Format (env_now_pcap env)) = false →
  let name := PcapFile (snd (LogRequest json_Marshal time_Format l req env)) in
  HasSuffix name ".pcap" = true
  ∧ has_separator name = false
  ∧ handlePcapDownload filepath_Join os_Stat logsDir ("/api/pcap/" +:+ name)
    = match os_Stat (filepath_Join logsDir name) with
      | StatNotExist => (NotFound "PCAP file not found", [filepath_Join logsDir name])
      | _ => (ServeFile (filepath_Join logsDir name) name, [filepath_Join logsDir name])
      end.
Proof.
  intros Hfmt name. subst name. rewrite LogRequest_entry.
  cbn [PcapFile newEntry].
  assert (HasSuffix ("capture_" +:+ time_Format (env_now_pcap env) +:+ ".pcap") ".pcap"
          = true) as Hsuf.
  { replace ("capture_" +:+ time_Format (env_now_pcap env) +:+ ".pcap")
      with (("capture_" +:+ time_Format (env_now_pcap env)) +:+ ".pcap").
    - apply HasSuffix_app.
    - by rewrite !append_String. }
  assert (has_separator ("capture_" +:+ time_Format (env_now_pcap env) +:+ ".pcap")
          = false) as Hsep.
  { by rewrite !has_separator_app, Hfmt. }
  split; [done|]. split; [done|]. by apply handlePcapDownload_plain.
Qed.

Lemma entry_capture_file_accepted_witness :
  fst (handlePcapDownload join_plain no_files "/logs"
         ("/api/pcap/"
          +:+ PcapFile (snd (LogRequest line_Marshal line_Format emptyLogger
                               getA env0))))
    = NotFound "PCAP file not found".
Proof.
  destruct (entry_capture_file_accepted line_Marshal line_Format join_plain
              no_files "/logs" emptyLogger getA env0 eq_refl) as (_ & _ & ->).
  reflexivity.
Defined.

(** ** Edge cases of the root CA *)

Section CAEdges.

Context {PrivateKey PublicKey Certificate : Type}.

Variable rsa_GenerateKey : N → nat → option PrivateKey.
Variable key_PublicKey : PrivateKey → PublicKey.
Variable rand_Int : N → Z → option Z.
Variable time_AddDate : Time → Z → Z → Z → Time.
Variable x509_CreateCertificate :
  N → CertTemplate → CertTemplate → PublicKey → PrivateKey → option (list byte).
Variable x509_ParseCertificate : list byte → option Certificate.
Variable x509_MarshalPKCS1PrivateKey : PrivateKey → list byte.
Variable x509_ParsePKCS1PrivateKey : list byte → option PrivateKey.
Variable pem_EncodeToMemory : string → list byte → list byte.
Variable pem_Decode : list byte → option (list byte).
Variable filepath_Join : string → string → string.

Local Abbreviation load :=
  (loadCA PrivateKey Certificate x509_ParseCertificate
     x509_ParsePKCS1PrivateKey pem_Decode).
Local Abbreviation create :=
  (createCA PrivateKey PublicKey Certificate rsa_GenerateKey key_PublicKey
     rand_Int time_AddDate x509_CreateCertificate x509_ParseCertificate
     x509_MarshalPKCS1PrivateKey pem_EncodeToMemory).
Local Abbreviation loadOrCreate :=
  (LoadOrCreateCA PrivateKey PublicKey Certificate rsa_GenerateKey key_PublicKey
     rand_Int time_AddDate x509_CreateCertificate x509_ParseCertificate
     x509_MarshalPKCS1PrivateKey x509_ParsePKCS1PrivateKey
     pem_EncodeToMemory pem_Decode filepath_Join).

(** [loadCA] succeeds exactly when both files are there, each decodes as
    PEM and each parses; the certificate and the key are read independently
    of each other, and nothing checks that the key belongs to the
    certificate. *)
Theorem loadCA_succeeds_iff
    (fs : gmap string (list byte)) (certPath keyPath : string)
    (ca : CAConfig PrivateKey Certificate) :
  load fs certPath keyPath = Ok ca
  ↔ ∃ certBlock keyBlock,
      fs !! certPath = Some (CertPEM ca) ∧ fs !! keyPath = Some (KeyPEM ca)
      ∧ pem_Decode (CertPEM ca) = Some certBlock
      ∧ x509_ParseCertificate certBlock = Some (Cert ca)
      ∧ pem_Decode (KeyPEM ca) = Some keyBlock
      ∧ x509_ParsePKCS1PrivateKey keyBlock = Some (Key ca).
Proof.
  unfold loadCA. split.
  - intros H.
    destruct (fs !! certPath) as [certPEM|]; [|discriminate].
    destruct (fs !! keyPath) as [keyPEM|]; [|discriminate].
    destruct (pem_Decode certPEM) as [certBlock|] eqn:Hc; [|discriminate].
    destruct (x509_ParseCertificate certBlock) as [cert|] eqn:Hpc; [|discriminate].
    destruct (pem_Decode keyPEM) as [keyBlock|] eqn:Hk; [|discriminate].
    destruct (x509_ParsePKCS1PrivateKey keyBlock) as [key|] eqn:Hpk; [|discriminate].
    injection H as <-. by exists certBlock, keyBlock.
  - intros (certBlock & keyBlock & -> & -> & -> & -> & -> & ->). by destruct ca.
Qed.

Lemma createCA_frame fs certPath keyPath env res fs' p :
  create fs certPath keyPath env = (res, fs') →
  p ≠ certPath → p ≠ keyPath → fs' !! p = fs !! p.
Proof.
  unfold createCA. intros H Hc Hk.
  destruct (rsa_GenerateKey _ _); [|by injection H as _ <-].
  destruct (rand_Int _ _); [|by injection H as _ <-].
  destruct (x509_CreateCertificate _ _ _ _ _); [|by injection H as _ <-].
  destruct (x509_ParseCertificate _); [|by injection H as _ <-].
  destruct (negb (ca_write_cert_ok env)); [by injection H as _ <-|].
  destruct (negb (ca_write_key_ok env)); injection H as _ <-.
  - by rewrite lookup_insert_ne.
  - by rewrite !lookup_insert_ne.
Qed.

(** [LoadOrCreateCA] never touches a file other than [ca.crt] and [ca.key],
    whatever its outcome.  When both artifacts exist it writes nothing at
    all and its result is that of [loadCA], independent of clock and
    randomness: artifacts that do not decode give an error and are left as
    they are, not replaced. *)
Theorem LoadOrCreateCA_storage_frame
    (logsDir : string) (fs : gmap string (list byte)) (env : CAEnv) :
  let certPath := filepath_Join logsDir "ca.crt" in
  let keyPath := filepath_Join logsDir "ca.key" in
  (∀ p, p ≠ certPath → p ≠ keyPath →
     snd (loadOrCreate fs logsDir env) !! p = fs !! p)
  ∧ (is_Some (fs !! certPath) → is_Some (fs !! keyPath) →
       loadOrCreate fs logsDir env = (load fs certPath keyPath, fs)
       ∧ (∀ certPEM, fs !! certPath = Some certPEM → pem_Decode certPEM = None →
            loadOrCreate fs logsDir env = (Err "failed to decode CA cert PEM", fs))).
Proof.
  intros certPath keyPath. unfold LoadOrCreateCA. fold certPath keyPath. split.
  - intros p Hc Hk.
    destruct (fs !! certPath); [destruct (fs !! keyPath)|]; simpl; try done;
      destruct (create fs certPath keyPath env) as [res fs'] eqn:Hcr;
      by apply (createCA_frame _ _ _ _ _ _ p) in Hcr.
  - intros [c Hc] [k Hk]. rewrite Hc, Hk. split; [done|].
    intros certPEM [= <-] Hdec. unfold loadCA. by rewrite Hc, Hk, Hdec.
Qed.


End CAEdges.

Lemma loadCA_succeeds_iff_witness :
  loadCA (list byte) (list byte) raw_Parse raw_Parse raw_pem_Decode both_artifacts
    (join_plain "/logs" "ca.crt") (join_plain "/logs" "ca.key")
    = Ok (mkCAConfig (list byte) (list byte) [x2a] [x07] [x01; x2a] [x02; x07]).
Proof.
  apply (proj2 (loadCA_succeeds_iff raw_Parse raw_Parse raw_pem_Decode both_artifacts
                  (join_plain "/logs" "ca.crt") (join_plain "/logs" "ca.key") _)).
  exists [x2a], [x07]. repeat split; reflexivity.
Defined.

Lemma LoadOrCreateCA_storage_frame_witness :
  snd (LoadOrCreateCA (list byte) (list byte) (list byte) raw_GenerateKey id raw_Int
         raw_AddDate raw_CreateCertificate raw_Parse raw_Marshal raw_Parse
         raw_pem_Encode raw_pem_Decode join_plain cert_only "/logs" caEnv0)
    !! "/logs/requests.jsonl"
  = cert_only !! "/logs/requests.jsonl".
Proof.
  apply (proj1 (LoadOrCreateCA_storage_frame raw_GenerateKey id raw_Int
                  raw_AddDate raw_CreateCertificate raw_Parse raw_Marshal raw_Parse
                  raw_pem_Encode raw_pem_Decode join_plain "/logs" cert_only caEnv0));
    discriminate.
Defined.


(** ** Two requests in flight *)

Lemma lastn_lastn_le {A} (n m : nat) (l : list A) :
  n ≤ m → lastn n (lastn m l) = lastn n l.
Proof.
  intros H. unfold lastn. rewrite length_drop, drop_drop. f_equal. lia.
Qed.

Section TwoRequests.

Variable json_Marshal : RequestLog → option (list byte).
Variable time_Format : Time → string.

Local Abbreviation record := (LogRequest json_Marshal time_Format).
Local Abbreviation entry_of := (newEntry time_Format).
Local Abbreviation complete := (LogResponse json_Marshal).

(** The working set after two requests have been recorded. *)
Lemma two_records_requests l reqA envA reqB envB dataA dataB :
  json_Marshal (entry_of reqA envA) = Some dataA →
  json_Marshal (entry_of reqB envB) = Some dataB →
  requests (fst (record (fst (record l reqA envA)) reqB envB))
    = lastn 998 (requests l) ++ [entry_of reqA envA; entry_of reqB envB].
Proof.
  intros HA HB.
  destruct (LogRequest_lookup_new _ _ (fst (record l reqA envA)) reqB envB dataB HB)
    as [-> _].
  destruct (LogRequest_lookup_new _ _ l reqA envA dataA HA) as [-> _].
  rewrite (lastn_snoc 998), lastn_lastn_le by lia.
  by rewrite <- app_assoc.
Qed.

(** The lookup still finds the first of the two when their ids differ. *)
Lemma two_records_lookup_first l reqA envA reqB envB dataA dataB :
  json_Marshal (entry_of reqA envA) = Some dataA →
  json_Marshal (entry_of reqB envB) = Some dataB →
  ID (entry_of reqA envA) ≠ ID (entry_of reqB envB) →
  requestIdx (fst (record (fst (record l reqA envA)) reqB envB))
    !! ID (entry_of reqA envA) = Some (length (lastn 998 (requests l))).
Proof.
  intros HA HB Hne.
  pose proof (two_records_requests l reqA envA reqB envB dataA dataB HA HB) as Hrs.
  destruct (LogRequest_lookup_new _ _ l reqA envA dataA HA) as [HrsA HidxA].
  revert Hrs. unfold LogRequest at 1 3. rewrite HB.
  destruct (_ <? _) eqn:Hlt; cbn [fst requests requestIdx]; intros Hrs.
  - rewrite Hrs. apply rebuildIdx_last_position.
    change [entry_of reqA envA; entry_of reqB envB]
      with ([entry_of reqA envA] ++ [entry_of reqB envB]).
    rewrite app_assoc. apply last_position_snoc_ne; [done|].
    by apply last_position_snoc_eq.
  - rewrite lookup_insert_ne by done. rewrite HidxA. f_equal.
    apply Nat.ltb_ge in Hlt. rewrite HrsA, !length_app, length_lastn in Hlt.
    change (length [entry_of reqA envA]) with 1 in Hlt.
    change (length [entry_of reqB envB]) with 1 in Hlt.
    unfold workingSetLimit in Hlt. rewrite !length_lastn. lia.
Qed.

(** Two requests recorded one after the other and completed in either
    order: when their ids differ, each response reaches its own record, and
    the snapshot ends with the two records in the order of their creation,
    each with its own response, whichever response came first. *)
Theorem interleaved_exchanges
    (l : Logger) (reqA reqB : Request) (envA envB : Env)
    (respA respB : Response) (wA wB : bool) (dataA dataB : list byte) :
  json_Marshal (entry_of reqA envA) = Some dataA →
  json_Marshal (entry_of reqB envB) = Some dataB →
  ID (entry_of reqA envA) ≠ ID (entry_of reqB envB) →
  let l2 := fst (record (fst (record l reqA envA)) reqB envB) in
  let idFirst := ID (entry_of reqA envA) in
  let idSecond := ID (entry_of reqB envB) in
  let completed := lastn 998 (requests l)
    ++ [setResponse (entry_of reqA envA) (resp_StatusCode respA)
          (firstValues (resp_Header respA)) (responseBody respA);
        setResponse (entry_of reqB envB) (resp_StatusCode respB)
          (firstValues (resp_Header respB)) (responseBody respB)] in
  ∃ lab lba,
    complete l2 idFirst (Some respA) wA ≫= (λ l3, complete l3 idSecond (Some respB) wB)
      = Some lab
    ∧ complete l2 idSecond (Some respB) wB ≫= (λ l3, complete l3 idFirst (Some respA) wA)
      = Some lba
    ∧ GetRequests lab = completed ∧ GetRequests lba = completed.
Proof.
  intros HA HB Hne l2 idFirst idSecond completed.
  pose proof (two_records_requests l reqA envA reqB envB dataA dataB HA HB) as Hrs.
  pose proof (two_records_lookup_first l reqA envA reqB envB dataA dataB HA HB Hne)
    as HiA.
  destruct (LogRequest_lookup_new _ _ (fst (record l reqA envA)) reqB envB dataB HB)
    as [HrsB HiB].
  fold l2 in Hrs, HiA, HrsB, HiB. fold idFirst in HiA. fold idSecond in HiB.
  set (F := lastn 998 (requests l)) in *.
  assert (length (lastn 999 (requests (fst (record l reqA envA)))) = S (length F))
    as Hlen.
  { apply (f_equal length) in HrsB. rewrite Hrs, !length_app in HrsB.
    simpl in HrsB. lia. }
  rewrite Hlen in HiB.
  assert (requests l2 !! length F = Some (entry_of reqA envA)) as HrA.
  { rewrite Hrs. by rewrite lookup_app_r, Nat.sub_diag. }
  assert (requests l2 !! S (length F) = Some (entry_of reqB envB)) as HrB.
  { rewrite Hrs, lookup_app_r by lia.
    by replace (S (length F) - length F) with 1 by lia. }
  rewrite (LogResponse_found json_Marshal l2 idFirst respA wA _ _ HiA HrA).
  rewrite (LogResponse_found json_Marshal l2 idSecond respB wB _ _ HiB HrB).
  cbn [mbind option_bind].
  erewrite (LogResponse_found json_Marshal _ idSecond respB wB (S (length F)));
    [|exact HiB|cbn [requests]; by rewrite list_lookup_insert_ne by lia].
  erewrite (LogResponse_found json_Marshal _ idFirst respA wA (length F));
    [|exact HiA|cbn [requests]; by rewrite list_lookup_insert_ne by lia].
  eexists _, _. split; [done|]. split; [done|].
  unfold GetRequests. cbn [requests]. subst completed. rewrite Hrs.
  split.
  - rewrite (insert_app_r_alt F _ (length F)) by lia.
    rewrite (insert_app_r_alt F _ (S (length F))) by lia.
    rewrite Nat.sub_diag. by replace (S (length F) - length F) with 1 by lia.
  - rewrite (insert_app_r_alt F _ (S (length F))) by lia.
    rewrite (insert_app_r_alt F _ (length F)) by lia.
    rewrite Nat.sub_diag. by replace (S (length F) - length F) with 1 by lia.
Qed.

(** When two requests in flight have drawn the same id, the lookup knows
    only the later one: the response of the first request is written into
    the record of the second, and the record of the first stays without
    response. *)
Theorem colliding_ids_misroute_response
    (l : Logger) (reqA reqB : Request) (envA envB : Env)
    (respA : Response) (wA : bool) (dataA dataB : list byte) :
  json_Marshal (entry_of reqA envA) = Some dataA →
  json_Marshal (entry_of reqB envB) = Some dataB →
  prefix32 (env_rand envA) = prefix32 (env_rand envB) →
  let l2 := fst (record (fst (record l reqA envA)) reqB envB) in
  ∃ l3, complete l2 (ID (entry_of reqA envA)) (Some respA) wA = Some l3
    ∧ GetRequests l3
      = lastn 998 (requests l)
        ++ [entry_of reqA envA;
            setResponse (entry_of reqB envB) (resp_StatusCode respA)
              (firstValues (resp_Header respA)) (responseBody respA)].
Proof.
  intros HA HB Hpre l2.
  assert (ID (entry_of reqA envA) = ID (entry_of reqB envB)) as Hid
    by (by rewrite !newEntry_ID, Hpre).
  pose proof (two_records_requests l reqA envA reqB envB dataA dataB HA HB) as Hrs.
  destruct (LogRequest_lookup_new _ _ (fst (record l reqA envA)) reqB envB dataB HB)
    as [HrsB HiB].
  fold l2 in Hrs, HrsB, HiB. rewrite <- Hid in HiB.
  set (F := lastn 998 (requests l)) in *.
  assert (length (lastn 999 (requests (fst (record l reqA envA)))) = S (length F))
    as Hlen.
  { apply (f_equal length) in HrsB. rewrite Hrs, !length_app in HrsB.
    simpl in HrsB. lia. }
  rewrite Hlen in HiB.
  assert (requests l2 !! S (length F) = Some (entry_of reqB envB)) as HrB.
  { rewrite Hrs, lookup_app_r by lia.
    by replace (S (length F) - length F) with 1 by lia. }
  rewrite (LogResponse_found json_Marshal l2 _ respA wA _ _ HiB HrB).
  eexists. split; [done|]. unfold GetRequests. cbn [requests]. rewrite Hrs.
  rewrite (insert_app_r_alt F _ (S (length F))) by lia.
  by replace (S (length F) - length F) with 1 by lia.
Qed.

End TwoRequests.

Lemma getA_marshalled (b : byte) :
  line_Marshal (newEntry line_Format getA (env_with b))
    = Some (bytes_of_string ("{" +:+ ID (newEntry line_Format getA (env_with b)) +:+ "}")).
Proof. reflexivity. Qed.

Lemma interleaved_exchanges_witness :
  ∃ lba,
    LogResponse line_Marshal
      (fst (LogRequest line_Marshal line_Format
              (fst (LogRequest line_Marshal line_Format emptyLogger getA
                      (env_with x01))) getA (env_with x02)))
      "02000000" (Some err500) true
      ≫= (λ l3, LogResponse line_Marshal l3 "01000000" (Some ok200) true) = Some lba
    ∧ ResponseStatus <$> GetRequests lba = [200%Z; 500%Z].
Proof.
  destruct (interleaved_exchanges line_Marshal line_Format emptyLogger getA getA
              (env_with x01) (env_with x02) ok200 err500 true true _ _
              (getA_marshalled x01) (getA_marshalled x02) ltac:(discriminate))
    as (lab & lba & _ & Hba & _ & Hrs).
  exists lba. split; [exact Hba|]. by rewrite Hrs.
Defined.

Lemma colliding_ids_misroute_response_witness :
  ∃ l3,
    LogResponse line_Marshal
      (fst (LogRequest line_Marshal line_Format
              (fst (LogRequest line_Marshal line_Format emptyLogger getA env0))
              getA env0))
      "00000000" (Some ok200) true = Some l3
    ∧ ResponseStatus <$> GetRequests l3 = [0%Z; 200%Z].
Proof.
  destruct (colliding_ids_misroute_response line_Marshal line_Format emptyLogger
              getA getA env0 env0 ok200 true _ _ eq_refl eq_refl eq_refl)
    as (l3 & H & Hrs).
  exists l3. split; [exact H|]. by rewrite Hrs.
Defined.

(** ** A write that fails *)


